(** * The random sentence generator (assn-1-rsg/rsg.cc)

    A shallow embedding of [rsg.cc]: the grammar reader [readGrammar], the
    classifier [isTerminal], the recursive expander [buildTextVector], the
    driver [generateText] and [main], together with the properties of the
    program that its specification states.

    [rsg.cc] includes [definition.h] and [production.h], whose
    implementation is not part of the sources at hand.  The two classes,
    and the random number generator behind them, are modelled from the
    specification; everything else is translated from [rsg.cc].  The
    definitions come first: the program, then the words of the
    specification, then the inputs of the examples.  The properties
    follow. *)

From Stdlib Require Import Ascii String List Arith Lia DecimalString DecimalNat.
From stdpp Require Import base option list strings gmap pretty.

Local Open Scope string_scope.
Local Open Scope list_scope.

(** ** Exceptions

    [std::map::at] and [std::string::at] both throw [std::out_of_range]; the
    throwing function is kept so that the two can be told apart.  The
    specification calls the first one [UndefinedNonterminalError]. *)

Inductive at_function := of_map | of_basic_string.

Inductive exception :=
| out_of_range (thrower : at_function)
| GrammarFormatError
| EmptyDefinitionError.

Definition UndefinedNonterminalError : exception := out_of_range of_map.

(** ** The process state

    Three objects live outside every function of [rsg.cc]: the random number
    generator behind [Definition::getRandomProduction], the standard output
    and the standard error.  None is a parameter of any function of the
    source: [getRandomProduction] is called without arguments, on a copy of
    a definition taken from a constant map, and the design notes of the
    specification record that the program relies on process-wide random
    state. *)

(** Modelled from the spec: the random source (class [RandomGenerator], used
    by the absent [definition.cc]).  It is a sequence of draws and the
    number of draws already consumed. *)
Record RandomGenerator := mkRandom {
  draws : nat -> nat;
  consumed : nat
}.

Record World := mkWorld {
  random : RandomGenerator;
  cout : string;
  cerr : string
}.

(** ** Computations

    A computation runs in a world and returns a value, throws a C++
    exception, or exhausts the fuel that bounds the recursion of the model
    ([Diverged]). *)

Inductive outcome (A : Type) :=
| Returned (a : A) (w : World)
| Thrown (e : exception) (w : World)
| Diverged.

Arguments Returned {A} a w.
Arguments Thrown {A} e w.
Arguments Diverged {A}.

Definition M (A : Type) : Type := World -> outcome A.

Definition ret {A} (a : A) : M A := fun w => Returned a w.

Definition throw {A} (e : exception) : M A := fun w => Thrown e w.

Definition bind {A B} (c : M A) (k : A -> M B) : M B :=
  fun w =>
    match c w with
    | Returned a w' => k a w'
    | Thrown e w' => Thrown e w'
    | Diverged => Diverged
    end.

Declare Scope rsg_scope.
Delimit Scope rsg_scope with rsg.

Notation "x <- c1 ;; c2" := (bind c1 (fun x => c2))
  (at level 100, c1 at next level, right associativity) : rsg_scope.
Notation "c1 ;;; c2" := (bind c1 (fun _ => c2))
  (at level 100, right associativity) : rsg_scope.

Local Open Scope rsg_scope.

(** [cout << s] *)
Definition print (s : string) : M unit :=
  fun w => Returned tt (mkWorld (random w) (cout w +:+ s) (cerr w)).

(** [cerr << s] *)
Definition print_err (s : string) : M unit :=
  fun w => Returned tt (mkWorld (random w) (cout w) (cerr w +:+ s)).

Definition newline : ascii := "010"%char.

Definition endl : string := String newline EmptyString.

(** Modelled from the spec: [RandomGenerator::getRandomInteger(low, high)],
    the next draw of the source brought into the range [low .. high]. *)
Definition getRandomInteger (low high : nat) : M nat :=
  fun w =>
    let r := random w in
    Returned (low + draws r (consumed r) mod (high - low + 1))
             (mkWorld (mkRandom (draws r) (S (consumed r))) (cout w) (cerr w)).

(** ** Standard containers *)

(** [std::string::at] *)
Definition string_at (s : string) (pos : nat) : M ascii :=
  match String.get pos s with
  | Some c => ret c
  | None => throw (out_of_range of_basic_string)
  end.

(** [std::map::at] on a map keyed by strings *)
Definition map_at {V} (m : gmap string V) (key : string) : M V :=
  match m !! key with
  | Some v => ret v
  | None => throw (out_of_range of_map)
  end.

(** ** Input streams

    An [ifstream] is the text that remains to be read and the two state
    bits the program looks at. *)

Record ifstream := mkStream {
  buffer : string;
  eofbit : bool;
  failbit : bool
}.

Definition good (infile : ifstream) : bool := negb (eofbit infile || failbit infile).

(** [ifstream(path)] over a file system given as a partial function *)
Definition open (fs : string -> option string) (path : string) : ifstream :=
  match fs path with
  | Some content => mkStream content false false
  | None => mkStream EmptyString false true
  end.

(** The text before the first [delim] and the text after it. *)
Fixpoint split_delim (delim : ascii) (s : string) : option (string * string) :=
  match s with
  | EmptyString => None
  | String c s' =>
      if Ascii.eqb c delim then Some (EmptyString, s')
      else match split_delim delim s' with
           | Some (pre, post) => Some (String c pre, post)
           | None => None
           end
  end.

(** [std::getline(infile, str, delim)]: extracts the text up to [delim]
    and drops [delim]; reaching the end of the text sets [eofbit], and
    extracting nothing sets [failbit].  Nothing is extracted from a stream
    that is not good. *)
Definition getline (infile : ifstream) (delim : ascii) : string * ifstream :=
  if good infile then
    match split_delim delim (buffer infile) with
    | Some (str, rest) => (str, mkStream rest false false)
    | None =>
        (buffer infile,
         mkStream EmptyString true
           (match buffer infile with EmptyString => true | _ => false end))
    end
  else (EmptyString, mkStream (buffer infile) (eofbit infile) true).

(** [infile.putback(c)] *)
Definition putback (infile : ifstream) (c : ascii) : ifstream :=
  if failbit infile then infile
  else mkStream (String c (buffer infile)) false false.

(** [infile.get()] *)
Definition get (infile : ifstream) : option ascii * ifstream :=
  if good infile then
    match buffer infile with
    | String c rest => (Some c, mkStream rest false false)
    | EmptyString => (None, mkStream EmptyString true true)
    end
  else (None, mkStream (buffer infile) (eofbit infile) true).

(** ** The characters of a token *)

(** A token is a nonterminal reference exactly when its first character is
    [<]; every other token is a terminal. *)
Definition is_nonterminal (token : string) : bool :=
  match token with
  | String c _ => Ascii.eqb c "<"
  | EmptyString => false
  end.

Fixpoint occurs (c : ascii) (s : string) : bool :=
  match s with
  | EmptyString => false
  | String c' s' => Ascii.eqb c' c || occurs c s'
  end.

(** No character of the string is white space. *)
Fixpoint spaceless (s : string) : bool :=
  match s with
  | EmptyString => true
  | String c s' => negb (Ascii.is_space c) && spaceless s'
  end.

(** Modelled from the spec: what the constructors of [production.cc] and
    [definition.cc] (both absent) take for a token of the grammar format:
    it is not empty and holds neither white space nor a brace. *)
Definition token_formb (token : string) : bool :=
  negb (String.eqb token EmptyString) && spaceless token
  && negb (occurs "{" token) && negb (occurs "}" token).

(** Modelled from the spec: the splitting of a production line in the
    absent [production.cc]; the fields of a line between the occurrences of
    [delim]. *)
Fixpoint split_on (delim : ascii) (s : string) : list string :=
  match s with
  | EmptyString => [EmptyString]
  | String c s' =>
      if Ascii.eqb c delim then EmptyString :: split_on delim s'
      else match split_on delim s' with
           | field :: fields => String c field :: fields
           | [] => [String c EmptyString]
           end
  end.

(** ** The classes [Production] and [Definition]

    A production is the vector of its words; [begin()], [end()] and the
    iterator between them are the list and its suffixes. *)

Abbreviation Production := (list string) (only parsing).

(** Modelled from the spec: [Production(infile)] (absent [production.cc]).
    One line of the stream is one production: its tokens, separated by
    single spaces.  There is none when the stream ends before the line
    does, or when a field of the line is not a token. *)
Definition Production_parse (infile : ifstream) : option (Production * ifstream) :=
  let '(line, infile) := getline infile newline in
  let tokens := split_on " " line in
  if good infile && forallb token_formb tokens then Some (tokens, infile)
  else None.

(** [Definition] is a reserved word, hence the underscore. *)
Record Definition_ := mkDefinition {
  nonterminal : string;
  possibleExpansions : list Production
}.

Definition getNonterminal (def : Definition_) : string := nonterminal def.

(** Modelled from the spec: [Definition::getRandomProduction()] (absent
    [definition.cc]).  The alternative at the index drawn from the random
    source among [0 .. size - 1]; the specification gives every definition
    at least one alternative and says nothing of a choice among none, which
    is a failure of its own here. *)
Definition getRandomProduction (def : Definition_) : M Production :=
  match possibleExpansions def with
  | [] => throw EmptyDefinitionError
  | first :: _ =>
      randomIndex <- getRandomInteger 0 (length (possibleExpansions def) - 1) ;;
      ret (nth randomIndex (possibleExpansions def) first)
  end.

(** Modelled from the spec: the reading of the count [K] in the absent
    [definition.cc].  The count line holds the decimal digits of a positive
    number, without a leading zero, and nothing else. *)
Definition read_count (line : string) : option nat :=
  match line with
  | String "0" _ => None
  | _ => Nat.of_uint <$> NilZero.uint_of_string line
  end.

(** Modelled from the spec: the loop of the absent [definition.cc] over
    the [K] production lines of a block. *)
Fixpoint read_productions (K : nat) (infile : ifstream)
  : option (list Production * ifstream) :=
  match K with
  | 0 => Some ([], infile)
  | S K' =>
      match Production_parse infile with
      | Some (production, infile) =>
          match read_productions K' infile with
          | Some (rest, infile) => Some (production :: rest, infile)
          | None => None
          end
      | None => None
      end
  end.

(** Modelled from the spec: the block format that [Definition(infile)]
    reads (absent [definition.cc]): a line with the opening brace alone,
    the line of the nonterminal name, the line of the count [K], [K]
    production lines, and the closing brace at the start of the next line.
    A missing brace, a name that is not a nonterminal token, a count that
    is not a positive number, a line that is not a production and a stream
    that ends early do not parse. *)
Definition Definition_parse (infile : ifstream) : option (Definition_ * ifstream) :=
  let '(_, infile) := getline infile "{" in
  let '(opening, infile) := getline infile newline in
  let '(name, infile) := getline infile newline in
  let '(count, infile) := getline infile newline in
  if good infile && String.eqb opening EmptyString
     && token_formb name && is_nonterminal name then
    match read_count count with
    | Some K =>
        match read_productions K infile with
        | Some (expansions, infile) =>
            match get infile with
            | (Some "}"%char, infile) => Some (mkDefinition name expansions, infile)
            | _ => None
            end
        | None => None
        end
    | None => None
    end
  else None.

(** Modelled from the spec: [Definition(infile)] (absent [definition.cc])
    constructs the definition of the next block and fails with
    [GrammarFormatError] when the stream does not hold one. *)
Definition Definition_from_stream (infile : ifstream) : M (Definition_ * ifstream) :=
  match Definition_parse infile with
  | Some constructed => ret constructed
  | None => throw GrammarFormatError
  end.

(** ** rsg.cc *)

(** [readGrammar]: the loop runs once per definition block; [fuel] bounds
    the number of iterations. *)
Fixpoint readGrammar (fuel : nat) (infile : ifstream)
    (grammar : gmap string Definition_)
  : M (ifstream * gmap string Definition_) :=
  match fuel with
  | 0 => fun _ => Diverged
  | S fuel' =>
      let '(uselessText, infile) := getline infile "{" in
      if eofbit infile then ret (infile, grammar)
      else
        let infile := putback infile "{" in
        def <- Definition_from_stream infile ;;
        readGrammar fuel' (snd def) (<[getNonterminal (fst def) := fst def]> grammar)
  end.

Definition isTerminal (word : string) : M bool :=
  c <- string_at word 0 ;;
  ret (negb (Ascii.eqb c "<")).

(** [buildTextVector]: [current] stands for the iterator and the end of
    [production], that is, for the words from the iterator onwards; [text]
    is passed by reference and comes back extended.  [fuel] bounds the
    nesting of loop iterations and recursive calls. *)
Fixpoint buildTextVector (fuel : nat) (current : Production)
    (grammar : gmap string Definition_) (text : list string)
  : M (list string) :=
  match fuel with
  | 0 => fun _ => Diverged
  | S fuel' =>
      match current with
      | [] => ret text
      | word :: next =>
          terminal <- isTerminal word ;;
          if terminal : bool then
            buildTextVector fuel' next grammar (text ++ [word])
          else
            definition <- map_at grammar word ;;
            newProduction <- getRandomProduction definition ;;
            text <- buildTextVector fuel' newProduction grammar text ;;
            buildTextVector fuel' next grammar text
      end
  end.

Fixpoint printTextVector (text : list string) : M unit :=
  match text with
  | [] => print endl
  | it :: rest => print it ;;; print " " ;;; printTextVector rest
  end.

(** [for (int i = first; i < first + iterations; ++i) body] *)
Fixpoint for_loop (i iterations : nat) (body : nat -> M unit) : M unit :=
  match iterations with
  | 0 => ret tt
  | S n => body i ;;; for_loop (S i) n body
  end.

Definition generateText (fuel : nat) (startNonTerminal : string)
    (grammar : gmap string Definition_) : M unit :=
  definition <- map_at grammar startNonTerminal ;;
  production <- getRandomProduction definition ;;
  let numberOfVersions := 3 in
  for_loop 0 numberOfVersions (fun i =>
    text <- buildTextVector fuel production grammar [] ;;
    print "Version #" ;;; print (pretty (i + 1)) ;;; print ":" ;;;
    print " ---------------------------" ;;; print endl ;;;
    printTextVector text ;;;
    print endl).

Definition quote : string := String "034" EmptyString.

(** [main]: [argv] is the command line, program name first ([argc] is its
    length), and [fs] the file system.  An exception that leaves [main]
    ends the process. *)
Definition main (fuel : nat) (argv : list string)
    (fs : string -> option string) : M nat :=
  let argc := length argv in
  if Nat.eqb argc 1 then
    print_err "You need to specify the name of a grammar file." ;;;
    print_err endl ;;;
    print_err "Usage: rsg <path to grammar text file>" ;;;
    print_err endl ;;;
    ret 1
  else
    let grammarFile := open fs (nth 1 argv EmptyString) in
    if failbit grammarFile then
      print_err "Failed to open the file named " ;;; print_err quote ;;;
      print_err (nth 1 argv EmptyString) ;;;
      print_err quote ;;;
      print_err ".  Check to ensure the file exists. " ;;; print_err endl ;;;
      ret 2
    else
      read <- readGrammar fuel grammarFile ∅ ;;
      let grammar := snd read in
      print "The grammar file called " ;;; print quote ;;;
      print (nth 1 argv EmptyString) ;;; print quote ;;;
      print " contains " ;;; print (pretty (size grammar)) ;;;
      print " definitions." ;;; print endl ;;;
      let startNonTerminal := "<start>" in
      generateText fuel startNonTerminal grammar ;;;
      ret 0.

(** * The words of the specification *)

(** ** Tokens and expansion *)

Definition advance (r : RandomGenerator) : RandomGenerator :=
  mkRandom (draws r) (S (consumed r)).

(** The alternative of [def] that the next draw of [r] selects. *)
Definition chooses (def : Definition_) (r : RandomGenerator) (p : Production) : Prop :=
  possibleExpansions def
    !! (draws r (consumed r) mod length (possibleExpansions def)) = Some p.

(** Expansion as the specification words it: walking the production in
    order, a terminal goes to the output as it is, and a nonterminal is
    replaced by the expansion of the alternative that the random source
    selects from its definition. *)
Inductive expands (grammar : gmap string Definition_)
  : Production -> RandomGenerator -> list string -> RandomGenerator -> Prop :=
| expands_end r :
    expands grammar [] r [] r
| expands_terminal word next r out r' :
    word <> EmptyString ->
    is_nonterminal word = false ->
    expands grammar next r out r' ->
    expands grammar (word :: next) r (word :: out) r'
| expands_nonterminal word next def p r out1 r1 out2 r2 :
    is_nonterminal word = true ->
    grammar !! word = Some def ->
    chooses def r p ->
    expands grammar p (advance r) out1 r1 ->
    expands grammar next r1 out2 r2 ->
    expands grammar (word :: next) r (out1 ++ out2) r2.

(** ** Requests for a nonterminal *)

(** [requests grammar current r name r']: the walk of [current], started
    with the random source at [r], arrives at a reference to the
    nonterminal [name] with the source at [r'].  The reference may stand in
    the production itself, after terminals and after nonterminals whose
    expansion is complete, or inside the expansion of a nonterminal. *)
Inductive requests (grammar : gmap string Definition_)
  : Production -> RandomGenerator -> string -> RandomGenerator -> Prop :=
| requests_here name next r :
    is_nonterminal name = true ->
    requests grammar (name :: next) r name r
| requests_past_terminal word next r name r' :
    word <> EmptyString ->
    is_nonterminal word = false ->
    requests grammar next r name r' ->
    requests grammar (word :: next) r name r'
| requests_within word next def p r name r' :
    is_nonterminal word = true ->
    grammar !! word = Some def ->
    chooses def r p ->
    requests grammar p (advance r) name r' ->
    requests grammar (word :: next) r name r'
| requests_past_nonterminal word next def p r out r1 name r' :
    is_nonterminal word = true ->
    grammar !! word = Some def ->
    chooses def r p ->
    expands grammar p (advance r) out r1 ->
    requests grammar next r1 name r' ->
    requests grammar (word :: next) r name r'.

(** ** What is written *)

(** The line that [printTextVector] writes. *)
Fixpoint text_line (text : list string) : string :=
  match text with
  | [] => endl
  | it :: rest => it +:+ " " +:+ text_line rest
  end.

(** What one turn of the loop of [generateText] writes. *)
Definition version_output (i : nat) (text : list string) : string :=
  "Version #" +:+ pretty (i + 1) +:+ ":" +:+ " ---------------------------"
  +:+ endl +:+ text_line text +:+ endl.

(** The line that [main] writes after reading the grammar. *)
Definition count_line (path : string) (grammar : gmap string Definition_) : string :=
  "The grammar file called " +:+ quote +:+ path +:+ quote +:+ " contains "
  +:+ pretty (size grammar) +:+ " definitions." +:+ endl.

(** ** Generation *)

(** Generation as the specification words it: [count] repetitions, each of
    which chooses an alternative of the start definition anew and expands
    it. *)
Definition generate_as_specified (fuel : nat) (startNonTerminal : string)
    (grammar : gmap string Definition_) (count : nat) : M unit :=
  definition <- map_at grammar startNonTerminal ;;
  for_loop 0 count (fun i =>
    production <- getRandomProduction definition ;;
    text <- buildTextVector fuel production grammar [] ;;
    print (version_output i text)).

(** ** Texts made of definition blocks *)

Definition from_text (text : string) : ifstream := mkStream text false false.

(** The constructor reads the definition [def] off [text] and leaves
    [rest]. *)
Definition reads_block (text : string) (def : Definition_) (rest : string) : Prop :=
  Definition_parse (from_text text) = Some (def, from_text rest).

(** [blocks text defs]: the text holds the definition blocks [defs], in
    this order, each after text without an opening brace, and no opening
    brace after the last one. *)
Inductive blocks : string -> list Definition_ -> Prop :=
| blocks_end text :
    occurs "{" text = false ->
    blocks text []
| blocks_more text junk body def rest defs :
    text = junk +:+ String "{" body ->
    occurs "{" junk = false ->
    reads_block (String "{" body) def rest ->
    blocks rest defs ->
    blocks text (def :: defs).

(** The map after the assignments [grammar[def.getNonterminal()] = def]
    for the definitions of [defs] in order. *)
Definition store (grammar : gmap string Definition_) (defs : list Definition_)
  : gmap string Definition_ :=
  foldl (fun grammar def => <[getNonterminal def := def]> grammar) grammar defs.

(** ** The text of a grammar *)

Definition unlines (lines : list string) : string :=
  foldr (fun line text => line +:+ endl +:+ text) EmptyString lines.

(** The words of a production, separated by single spaces. *)
Fixpoint unwords (words : list string) : string :=
  match words with
  | [] => EmptyString
  | [word] => word
  | word :: rest => word +:+ " " +:+ unwords rest
  end.

Definition decimal (n : nat) : string := NilZero.string_of_uint (Nat.to_uint n).

(** The lines of the block of a definition, in the format of the
    specification. *)
Definition block_lines (def : Definition_) : list string :=
  ["{"; nonterminal def; decimal (length (possibleExpansions def))]
  ++ (unwords <$> possibleExpansions def) ++ ["}"].

(** The text of a grammar: its blocks one after the other. *)
Definition grammar_text (defs : list Definition_) : string :=
  unlines (defs ≫= block_lines).

(** A token is not empty and holds no white space. *)
Definition token_ok (token : string) : Prop :=
  token <> EmptyString /\
  forall c, occurs c token = true -> Ascii.is_space c = false.

(** A token of the format also holds no brace: the braces delimit the
    blocks. *)
Definition format_token (token : string) : Prop :=
  token_ok token /\
  occurs "{" token = false /\ occurs "}" token = false.

(** A production of the format has a token, and a definition of the
    format has the name of a nonterminal and an alternative. *)
Definition format_production (p : Production) : Prop :=
  p <> [] /\ Forall format_token p.

Definition format_definition (def : Definition_) : Prop :=
  format_token (nonterminal def) /\
  is_nonterminal (nonterminal def) = true /\
  possibleExpansions def <> [] /\
  Forall format_production (possibleExpansions def).

(** The format of a definition, as a check. *)
Definition format_definitionb (def : Definition_) : bool :=
  token_formb (nonterminal def) && is_nonterminal (nonterminal def)
  && negb (Nat.eqb (length (possibleExpansions def)) 0)
  && forallb (fun p => negb (Nat.eqb (length p) 0) && forallb token_formb p)
       (possibleExpansions def).

(** The block of a definition, from its opening to its closing brace. *)
Definition block_text (def : Definition_) : string :=
  unlines (["{"; nonterminal def; decimal (length (possibleExpansions def))]
           ++ (unwords <$> possibleExpansions def))
  +:+ "}".

(** [conforms text defs]: the text conforms to the block format and holds
    the definitions [defs]: it is the blocks of [defs], each a block of the
    format, in this order, with text free of opening braces before each of
    them and after the last. *)
Inductive conforms : string -> list Definition_ -> Prop :=
| conforms_end junk :
    occurs "{" junk = false ->
    conforms junk []
| conforms_block junk def rest defs :
    occurs "{" junk = false ->
    format_definition def ->
    conforms rest defs ->
    conforms (junk +:+ block_text def +:+ rest) (def :: defs).

(** A text that does not conform to the block format. *)
Definition malformed (text : string) : Prop :=
  forall defs, ~ conforms text defs.

(** ** Words on the outcomes of expansion and generation *)

(** What [generateText] writes for the texts of its turns [i], [i + 1],
    ... *)
Fixpoint versions (i : nat) (texts : list (list string)) : string :=
  match texts with
  | [] => EmptyString
  | text :: rest => version_output i text +:+ versions (S i) rest
  end.

(** The token stands in the production or in an alternative of a
    definition of the grammar. *)
Definition word_of (grammar : gmap string Definition_) (current : Production)
    (token : string) : Prop :=
  token ∈ current \/
  exists name def p,
    grammar !! name = Some def /\ p ∈ possibleExpansions def /\ token ∈ p.

(** A word that can be expanded below the rank [bound]: it is not empty,
    and if it is a nonterminal the grammar defines it and ranks it below
    [bound]. *)
Definition expandable (grammar : gmap string Definition_) (rank : string -> nat)
    (bound : nat) (word : string) : Prop :=
  word <> EmptyString /\
  (is_nonterminal word = true ->
   is_Some (grammar !! word) /\ rank word < bound).

(** A grammar without recursion and without gaps: every definition has an
    alternative, and the words of its alternatives can be expanded below
    the rank of its key. *)
Definition ranked_grammar (grammar : gmap string Definition_)
    (rank : string -> nat) : Prop :=
  forall name def,
    grammar !! name = Some def ->
    possibleExpansions def <> [] /\
    Forall (Forall (expandable grammar rank (rank name))) (possibleExpansions def).

(** The two messages of [main] on the standard error. *)
Definition usage_message : string :=
  "You need to specify the name of a grammar file." +:+ endl
  +:+ "Usage: rsg <path to grammar text file>" +:+ endl.

Definition open_failure_message (path : string) : string :=
  "Failed to open the file named " +:+ quote +:+ path +:+ quote
  +:+ ".  Check to ensure the file exists. " +:+ endl.

(** * Concrete inputs *)

(** ** Random sources and the first world *)

(** A random source whose every draw is [i], and one that draws
    0, 1, 0, 1, ... *)
Definition always (i : nat) : RandomGenerator := mkRandom (fun _ => i) 0.

Definition alternating : RandomGenerator := mkRandom (fun n => n mod 2) 0.

(** The world at the start of the process. *)
Definition initially (r : RandomGenerator) : World :=
  mkWorld r EmptyString EmptyString.

(** ** Grammars *)

Definition start_definition : Definition_ :=
  mkDefinition "<start>" [["The"; "<animal>"; "sat"; "."]].

Definition animal_definition : Definition_ :=
  mkDefinition "<animal>" [["cat"]; ["dog"]].

Definition example_grammar : gmap string Definition_ :=
  <["<animal>" := animal_definition]> (<["<start>" := start_definition]> ∅).

(** The same grammar without the block of [<animal>]. *)
Definition start_only_grammar : gmap string Definition_ :=
  <["<start>" := start_definition]> ∅.

(** A grammar whose start symbol has two alternatives. *)
Definition coin_grammar : gmap string Definition_ :=
  <["<start>" := mkDefinition "<start>" [["heads"]; ["tails"]]]> ∅.

(** ** Grammar texts and files *)

Definition start_block : list string :=
  ["{"; "<start>"; "1"; "The <animal> sat ."; "}"].

Definition animal_block : list string :=
  ["{"; "<animal>"; "2"; "cat"; "dog"; "}"].

Definition example_text : string := unlines (start_block ++ animal_block).

Definition first_x_block : list string := ["{"; "<x>"; "1"; "a"; "}"].

Definition second_x_block : list string := ["{"; "<x>"; "1"; "b"; "}"].

Definition duplicate_text : string := unlines (first_x_block ++ second_x_block).

Definition missing_line_block : list string :=
  ["{"; "<animal>"; "3"; "cat"; "dog"; "}"].

Definition extra_line_block : list string :=
  ["{"; "<animal>"; "1"; "cat"; "dog"; "}"].

(** Texts out of the format: a count beyond the production lines before
    the closing brace, with more lines after it; a count of zero; an empty
    name; a name that is no nonterminal; a count that is no number; a block
    without its closing brace; an opening brace that does not end its
    line; a production with two spaces between its tokens. *)
Definition overlong_count_text : string :=
  unlines ["{"; "<animal>"; "3"; "cat"; "dog"; "}"; "}"].

Definition zero_count_text : string := unlines ["{"; "<animal>"; "0"; "}"].

Definition empty_name_text : string :=
  unlines ["{"; EmptyString; "1"; "cat"; "}"].

Definition terminal_name_text : string :=
  unlines ["{"; "animal"; "1"; "cat"; "}"].

Definition word_count_text : string :=
  unlines ["{"; "<animal>"; "two"; "cat"; "dog"; "}"].

Definition unclosed_text : string := unlines ["{"; "<animal>"; "1"; "cat"].

Definition crowded_brace_text : string :=
  unlines ["{ <animal>"; "1"; "cat"; "}"].

Definition wide_space_text : string :=
  unlines ["{"; "<animal>"; "1"; "big  cat"; "}"].

Definition texts_out_of_format : list string :=
  [overlong_count_text; zero_count_text; empty_name_text; terminal_name_text;
   word_count_text; unclosed_text; crowded_brace_text; wide_space_text;
   unlines (start_block ++ missing_line_block);
   unlines (start_block ++ extra_line_block)].

Definition example_files (path : string) : option string :=
  if String.eqb path "example.g" then Some example_text
  else if String.eqb path "start.g" then Some (unlines start_block)
  else None.

Definition animal_files (path : string) : option string :=
  if String.eqb path "animal.g" then Some (unlines animal_block) else None.

(** A grammar whose only definition refers to itself first. *)
Definition loop_grammar : gmap string Definition_ :=
  <["<loop>" := mkDefinition "<loop>" [["<loop>"; "again"]; ["<loop>"]]]> ∅.

(** Ranks for [example_grammar]: [<start>] above [<animal>]. *)
Definition example_rank (name : string) : nat :=
  if String.eqb name "<start>" then 1 else 0.

(** * Properties *)

(** ** Classification *)

Lemma isTerminal_unfold word w :
  isTerminal word w =
  match word with
  | EmptyString => Thrown (out_of_range of_basic_string) w
  | String _ _ => Returned (negb (is_nonterminal word)) w
  end.
Proof. destruct word; reflexivity. Qed.

(** ** The random choice *)

Lemma getRandomProduction_unfold def w :
  getRandomProduction def w =
  match possibleExpansions def
          !! (draws (random w) (consumed (random w))
              mod length (possibleExpansions def)) with
  | Some p => Returned p (mkWorld (advance (random w)) (cout w) (cerr w))
  | None => Thrown EmptyDefinitionError w
  end.
Proof.
  unfold getRandomProduction, getRandomInteger, bind, ret, throw, advance.
  destruct (possibleExpansions def) as [|first others] eqn:E; [reflexivity|].
  cbn [length]. rewrite Nat.add_0_l.
  replace (S (length others) - 1 - 0 + 1) with (S (length others)) by lia.
  set (i := draws (random w) (consumed (random w)) mod S (length others)).
  assert (Hi : i < length (first :: others)).
  { subst i. cbn [length]. apply Nat.mod_upper_bound. lia. }
  destruct (lookup_lt_is_Some_2 (first :: others) i Hi) as [p Hp].
  rewrite Hp. f_equal. apply nth_lookup_Some with (d := first) in Hp. exact Hp.
Qed.

Lemma getRandomProduction_Returned def w p w' :
  getRandomProduction def w = Returned p w' <->
  chooses def (random w) p /\
  w' = mkWorld (advance (random w)) (cout w) (cerr w).
Proof.
  rewrite getRandomProduction_unfold. unfold chooses.
  destruct (possibleExpansions def !! _) as [q|]; split.
  - intros [= -> <-]. auto.
  - intros [[= ->] ->]. reflexivity.
  - discriminate.
  - intros [[=] _].
Qed.

Lemma chooses_elem_of def r p : chooses def r p -> p ∈ possibleExpansions def.
Proof. unfold chooses. intros H. eapply list_elem_of_lookup_2, H. Qed.

(** ** One step of [buildTextVector] *)

Lemma buildTextVector_step fuel word next grammar text w :
  buildTextVector (S fuel) (word :: next) grammar text w =
  match word with
  | EmptyString => Thrown (out_of_range of_basic_string) w
  | String _ _ =>
      if is_nonterminal word then
        match grammar !! word with
        | None => Thrown UndefinedNonterminalError w
        | Some def =>
            match getRandomProduction def w with
            | Returned p w1 =>
                match buildTextVector fuel p grammar text w1 with
                | Returned text1 w2 => buildTextVector fuel next grammar text1 w2
                | Thrown e w2 => Thrown e w2
                | Diverged => Diverged
                end
            | Thrown e w1 => Thrown e w1
            | Diverged => Diverged
            end
        end
      else buildTextVector fuel next grammar (text ++ [word]) w
  end.
Proof.
  cbn [buildTextVector]. unfold bind at 1. rewrite isTerminal_unfold.
  destruct word as [|c word']; [reflexivity|].
  destruct (is_nonterminal (String c word')); cbn [negb]; [|reflexivity].
  unfold bind, map_at.
  destruct (grammar !! String c word'); reflexivity.
Qed.

(** More fuel does not change an outcome that was reached. *)
Lemma buildTextVector_fuel fuel :
  forall current grammar text w fuel',
    buildTextVector fuel current grammar text w <> Diverged ->
    fuel <= fuel' ->
    buildTextVector fuel' current grammar text w
    = buildTextVector fuel current grammar text w.
Proof.
  induction fuel as [|fuel IH]; intros current grammar text w fuel' Hdef Hle.
  - exfalso. apply Hdef. reflexivity.
  - destruct fuel' as [|fuel']; [lia|].
    destruct current as [|word next]; [reflexivity|].
    rewrite buildTextVector_step in Hdef. rewrite !buildTextVector_step.
    destruct word as [|c word']; [reflexivity|].
    destruct (is_nonterminal (String c word')).
    + destruct (grammar !! String c word') as [def|]; [|reflexivity].
      destruct (getRandomProduction def w) as [p w1|e w1|]; try reflexivity.
      destruct (buildTextVector fuel p grammar text w1) as [t w2|e w2|] eqn:E1.
      * rewrite (IH p grammar text w1 fuel') by (rewrite ?E1; (discriminate || lia)).
        rewrite E1. apply IH; [exact Hdef|lia].
      * rewrite (IH p grammar text w1 fuel') by (rewrite ?E1; (discriminate || lia)).
        rewrite E1. reflexivity.
      * exfalso. apply Hdef. reflexivity.
    + apply IH; [exact Hdef|lia].
Qed.

(** What [buildTextVector] returns is what the specification's expansion
    yields, appended to the text it was given; the outputs are untouched. *)
Lemma buildTextVector_sound fuel :
  forall current grammar text w text' w',
    buildTextVector fuel current grammar text w = Returned text' w' ->
    exists out,
      text' = text ++ out /\
      expands grammar current (random w) out (random w') /\
      cout w' = cout w /\ cerr w' = cerr w.
Proof.
  induction fuel as [|fuel IH]; intros current grammar text w text' w' H.
  - discriminate.
  - destruct current as [|word next].
    + injection H as <- <-. exists []. rewrite app_nil_r.
      repeat split. constructor.
    + rewrite buildTextVector_step in H.
      destruct word as [|c word']; [discriminate|].
      destruct (is_nonterminal (String c word')) eqn:Hnt.
      * destruct (grammar !! String c word') as [def|] eqn:Hdef; [|discriminate].
        destruct (getRandomProduction def w) as [p w1|e w1|] eqn:Hp;
          try discriminate.
        apply getRandomProduction_Returned in Hp as [Hch ->].
        destruct (buildTextVector fuel p grammar text _) as [t w2|e w2|] eqn:E1;
          try discriminate.
        apply IH in E1 as (out1 & -> & Hex1 & Hc1 & He1).
        apply IH in H as (out2 & -> & Hex2 & Hc2 & He2).
        cbn in Hex1, Hc1, He1.
        exists (out1 ++ out2). rewrite app_assoc.
        repeat split; [|congruence|congruence].
        eapply expands_nonterminal; eauto.
      * apply IH in H as (out & -> & Hex & Hc & He).
        exists (String c word' :: out). rewrite <- app_assoc.
        repeat split; [|assumption|assumption].
        apply expands_terminal; [discriminate|assumption|assumption].
Qed.

(** Conversely, every expansion of the specification is returned by
    [buildTextVector] once the fuel suffices. *)
Lemma buildTextVector_complete grammar current r out r' :
  expands grammar current r out r' ->
  exists fuel0, forall fuel, fuel0 <= fuel ->
    forall text o e,
      buildTextVector fuel current grammar text (mkWorld r o e)
      = Returned (text ++ out) (mkWorld r' o e).
Proof.
  induction 1 as [r|word next r out r' Hne Hnt _ [f IH]
                 |word next def p r out1 r1 out2 r2 Hnt Hdef Hch _ [f1 IH1] _ [f2 IH2]].
  - exists 1. intros [|fuel] Hle text o e; [lia|].
    cbn. unfold ret. rewrite app_nil_r. reflexivity.
  - exists (S f). intros [|fuel] Hle text o e; [lia|].
    rewrite buildTextVector_step, Hnt.
    destruct word; [congruence|].
    rewrite IH by lia. rewrite <- app_assoc. reflexivity.
  - exists (S (max f1 f2)). intros [|fuel] Hle text o e; [lia|].
    rewrite buildTextVector_step, Hnt, Hdef.
    destruct word; [discriminate|].
    assert (Hp : getRandomProduction def (mkWorld r o e)
                 = Returned p (mkWorld (advance r) o e)).
    { apply getRandomProduction_Returned. split; [exact Hch|reflexivity]. }
    rewrite Hp, IH1 by lia. rewrite IH2 by lia.
    rewrite app_assoc. reflexivity.
Qed.

(** ** Strings and printing *)

Lemma string_app_assoc (s1 s2 s3 : string) :
  (s1 +:+ s2) +:+ s3 = s1 +:+ (s2 +:+ s3).
Proof.
  induction s1 as [|c s1 IH]; [reflexivity|].
  change (String c ((s1 +:+ s2) +:+ s3) = String c (s1 +:+ (s2 +:+ s3))).
  f_equal. exact IH.
Qed.

Lemma string_app_nil_r (s : string) : s +:+ EmptyString = s.
Proof.
  induction s as [|c s IH]; [reflexivity|].
  change (String c (s +:+ EmptyString) = String c s). f_equal. exact IH.
Qed.

Lemma printTextVector_prints text w :
  printTextVector text w
  = Returned tt (mkWorld (random w) (cout w +:+ text_line text) (cerr w)).
Proof.
  revert w. induction text as [|it rest IH]; intros w; [reflexivity|].
  cbn [printTextVector text_line]. unfold bind, print. rewrite IH. cbn.
  rewrite !string_app_assoc. reflexivity.
Qed.

Lemma version_prints i text w :
  (print "Version #" ;;; print (pretty (i + 1)) ;;; print ":" ;;;
   print " ---------------------------" ;;; print endl ;;;
   printTextVector text ;;; print endl) w
  = Returned tt (mkWorld (random w) (cout w +:+ version_output i text) (cerr w)).
Proof.
  unfold bind, print. rewrite printTextVector_prints. cbn.
  unfold version_output. rewrite !string_app_assoc. reflexivity.
Qed.

(** ** [generateText] unfolded *)

(** One turn of the loop of [generateText]. *)
Lemma version_turn fuel production grammar i w :
  (text <- buildTextVector fuel production grammar [] ;;
   print "Version #" ;;; print (pretty (i + 1)) ;;; print ":" ;;;
   print " ---------------------------" ;;; print endl ;;;
   printTextVector text ;;; print endl) w
  = match buildTextVector fuel production grammar [] w with
    | Returned text w' =>
        Returned tt (mkWorld (random w') (cout w' +:+ version_output i text) (cerr w'))
    | Thrown e w' => Thrown e w'
    | Diverged => Diverged
    end.
Proof.
  unfold bind at 1.
  destruct (buildTextVector fuel production grammar [] w); try reflexivity.
  apply version_prints.
Qed.

Ltac turn :=
  match goal with
  | |- context [bind (buildTextVector ?f ?p ?g []) _ ?w] =>
      rewrite (version_turn f p g _ w)
  end.

Tactic Notation "destruct_expansion" ident(t) ident(w) ident(E) :=
  match goal with
  | |- context [match buildTextVector ?f ?p ?g ?tx ?wx with _ => _ end] =>
      destruct (buildTextVector f p g tx wx) as [t w|? ?|] eqn:E
  end.

Lemma generateText_start fuel startNonTerminal grammar w :
  generateText fuel startNonTerminal grammar w =
  match grammar !! startNonTerminal with
  | None => Thrown UndefinedNonterminalError w
  | Some definition =>
      match getRandomProduction definition w with
      | Returned production w1 =>
          for_loop 0 3 (fun i =>
            text <- buildTextVector fuel production grammar [] ;;
            print "Version #" ;;; print (pretty (i + 1)) ;;; print ":" ;;;
            print " ---------------------------" ;;; print endl ;;;
            printTextVector text ;;; print endl) w1
      | Thrown e w1 => Thrown e w1
      | Diverged => Diverged
      end
  end.
Proof.
  unfold generateText, map_at. unfold bind at 1.
  destruct (grammar !! startNonTerminal) as [definition|]; [|reflexivity].
  unfold ret. unfold bind at 1. reflexivity.
Qed.

(** A run of [generateText] that returns has drawn the production of the
    start symbol once and expanded that production three times. *)
Lemma generateText_returns fuel startNonTerminal grammar w w' :
  generateText fuel startNonTerminal grammar w = Returned tt w' ->
  exists definition production text1 r1 text2 r2 text3 r3,
    grammar !! startNonTerminal = Some definition /\
    chooses definition (random w) production /\
    expands grammar production (advance (random w)) text1 r1 /\
    expands grammar production r1 text2 r2 /\
    expands grammar production r2 text3 r3 /\
    w' = mkWorld r3
           (cout w +:+ version_output 0 text1 +:+ version_output 1 text2
            +:+ version_output 2 text3)
           (cerr w).
Proof.
  rewrite generateText_start.
  destruct (grammar !! startNonTerminal) as [definition|]; [|discriminate].
  destruct (getRandomProduction definition w) as [production w1|e w1|] eqn:Hp;
    try discriminate.
  apply getRandomProduction_Returned in Hp as [Hch ->].
  cbn [for_loop]. unfold bind at 1. turn.
  destruct_expansion t1 w1 E1; try discriminate.
  unfold bind at 1. turn.
  destruct_expansion t2 w2 E2; try discriminate.
  unfold bind at 1. turn.
  destruct_expansion t3 w3 E3; try discriminate.
  unfold ret. intros [= <-].
  apply buildTextVector_sound in E1 as (o1 & -> & X1 & C1 & R1).
  apply buildTextVector_sound in E2 as (o2 & -> & X2 & C2 & R2).
  apply buildTextVector_sound in E3 as (o3 & -> & X3 & C3 & R3).
  cbn in *.
  exists definition, production, o1, (random w1), o2, (random w2), o3, (random w3).
  repeat split; try assumption.
  rewrite C3, C2, C1, R3, R2, R1, !string_app_assoc. reflexivity.
Qed.

(** Conversely, with enough fuel. *)
Lemma generateText_complete startNonTerminal grammar definition production
    r text1 r1 text2 r2 text3 r3 :
  grammar !! startNonTerminal = Some definition ->
  chooses definition r production ->
  expands grammar production (advance r) text1 r1 ->
  expands grammar production r1 text2 r2 ->
  expands grammar production r2 text3 r3 ->
  exists fuel0, forall fuel, fuel0 <= fuel -> forall o e,
    generateText fuel startNonTerminal grammar (mkWorld r o e)
    = Returned tt
        (mkWorld r3
           (o +:+ version_output 0 text1 +:+ version_output 1 text2
            +:+ version_output 2 text3) e).
Proof.
  intros Hdef Hch X1 X2 X3.
  apply buildTextVector_complete in X1 as [f1 X1].
  apply buildTextVector_complete in X2 as [f2 X2].
  apply buildTextVector_complete in X3 as [f3 X3].
  exists (max f1 (max f2 f3)). intros fuel Hle o e.
  rewrite generateText_start, Hdef.
  assert (Hp : getRandomProduction definition (mkWorld r o e)
               = Returned production (mkWorld (advance r) o e)).
  { apply getRandomProduction_Returned. split; [exact Hch|reflexivity]. }
  rewrite Hp. cbn [for_loop].
  unfold bind at 1. turn. rewrite X1 by lia.
  unfold bind at 1. turn. rewrite X2 by lia.
  unfold bind at 1. turn. rewrite X3 by lia.
  cbn. rewrite !string_app_assoc. reflexivity.
Qed.

(** ** Only terminals are generated *)

Lemma expands_terminals grammar current r out r' :
  expands grammar current r out r' ->
  Forall (fun token => is_nonterminal token = false) out.
Proof.
  induction 1; [constructor|constructor; assumption|].
  apply Forall_app. split; assumption.
Qed.

(** C2.  Every token that an expansion appends to the text is a terminal:
    it does not begin with [<].  This holds for [buildTextVector] on any
    production, and for each of the three texts that [generateText]
    writes. *)
Theorem generated_tokens_are_terminals fuel grammar w :
  (forall current text text' w',
      buildTextVector fuel current grammar text w = Returned text' w' ->
      exists out,
        text' = text ++ out /\
        Forall (fun token => is_nonterminal token = false) out) /\
  (forall startNonTerminal w',
      generateText fuel startNonTerminal grammar w = Returned tt w' ->
      exists text1 text2 text3,
        cout w' = cout w +:+ version_output 0 text1
                  +:+ version_output 1 text2 +:+ version_output 2 text3 /\
        Forall (fun token => is_nonterminal token = false)
               (text1 ++ text2 ++ text3)).
Proof.
  split.
  - intros current text text' w' H.
    apply buildTextVector_sound in H as (out & -> & Hex & _).
    exists out. split; [reflexivity|]. eapply expands_terminals, Hex.
  - intros startNonTerminal w' H.
    apply generateText_returns in H
      as (def & p & t1 & r1 & t2 & r2 & t3 & r3 & _ & _ & X1 & X2 & X3 & ->).
    exists t1, t2, t3. split; [reflexivity|].
    rewrite !Forall_app. repeat split; eapply expands_terminals; eassumption.
Qed.

Lemma generated_tokens_are_terminals_witness :
  (exists out,
      ["The"; "cat"; "sat"; "."] = [] ++ out /\
      Forall (fun token => is_nonterminal token = false) out) /\
  (exists text1 text2 text3 : list string,
      version_output 0 ["The"; "cat"; "sat"; "."]
      +:+ version_output 1 ["The"; "cat"; "sat"; "."]
      +:+ version_output 2 ["The"; "cat"; "sat"; "."]
      = EmptyString +:+ version_output 0 text1
        +:+ version_output 1 text2 +:+ version_output 2 text3 /\
      Forall (fun token => is_nonterminal token = false)
             (text1 ++ text2 ++ text3)).
Proof.
  destruct (generated_tokens_are_terminals 10 example_grammar
              (initially (always 0))) as [Hexpansion Hgeneration].
  split.
  - apply (Hexpansion ["<start>"] []
             ["The"; "cat"; "sat"; "."]
             (mkWorld (mkRandom (fun _ => 0) 2) EmptyString EmptyString)).
    vm_compute. reflexivity.
  - apply (Hgeneration "<start>"
             (mkWorld (mkRandom (fun _ => 0) 4)
                (version_output 0 ["The"; "cat"; "sat"; "."]
                 +:+ version_output 1 ["The"; "cat"; "sat"; "."]
                 +:+ version_output 2 ["The"; "cat"; "sat"; "."])
                EmptyString)).
    vm_compute. reflexivity.
Defined.

(** ** Expansion walks the production in order *)

(** The expansion of two productions one after the other is the expansion
    of the first followed by the expansion of the second. *)
Lemma expands_app grammar p1 p2 r out r' :
  expands grammar (p1 ++ p2) r out r' <->
  exists out1 r1 out2,
    expands grammar p1 r out1 r1 /\ expands grammar p2 r1 out2 r' /\
    out = out1 ++ out2.
Proof.
  split.
  - revert r out r'. induction p1 as [|word p1 IH]; intros r out r' H.
    + exists [], r, out. split; [constructor|]. split; [exact H|reflexivity].
    + cbn [app] in H.
      inversion H as [|? ? ? o ? Hne Hnt Hrest
                      |? ? def p ? out1 r1' out2 ? Hnt Hdef Hch Hp Hrest]; subst.
      * destruct (IH _ _ _ Hrest) as (o1 & r1 & o2 & X1 & X2 & ->).
        exists (word :: o1), r1, o2. split; [|split; [exact X2|reflexivity]].
        apply expands_terminal; assumption.
      * destruct (IH _ _ _ Hrest) as (o1 & r3 & o2 & X1 & X2 & ->).
        exists (out1 ++ o1), r3, o2. split; [|split; [exact X2|]].
        -- eapply expands_nonterminal; eassumption.
        -- rewrite app_assoc. reflexivity.
  - intros (out1 & r1 & out2 & X1 & X2 & ->).
    induction X1 as [r|word next r o r1 Hne Hnt _ IH
                    |word next def p r o1 r1 o2 r2 Hnt Hdef Hch X _ _ IH].
    + exact X2.
    + cbn [app]. apply expands_terminal; auto.
    + cbn [app]. rewrite <- app_assoc.
      eapply expands_nonterminal; eauto.
Qed.

(** Every alternative of a definition is the choice of some draw. *)
Lemma chooses_index def r i p :
  possibleExpansions def !! i = Some p ->
  draws r (consumed r) = i ->
  chooses def r p.
Proof.
  intros Hp Hi. unfold chooses. rewrite Hi.
  rewrite Nat.mod_small; [exact Hp|]. eapply lookup_lt_Some, Hp.
Qed.

(** The texts that [buildTextVector] can return. *)
Lemma buildTextVector_returns_iff grammar current text w text' w' :
  (exists fuel, buildTextVector fuel current grammar text w = Returned text' w')
  <->
  (exists out,
      expands grammar current (random w) out (random w') /\
      text' = text ++ out /\ cout w' = cout w /\ cerr w' = cerr w).
Proof.
  split.
  - intros [fuel H].
    apply buildTextVector_sound in H as (out & -> & Hex & Hc & He).
    exists out. auto.
  - intros (out & Hex & -> & Hc & He).
    apply buildTextVector_complete in Hex as [fuel H].
    exists fuel. destruct w as [r o e], w' as [r' o' e']. cbn in *. subst.
    apply H. lia.
Qed.

(** The walk of two productions one after the other. *)
Lemma buildTextVector_app grammar p1 p2 text w text' w' :
  (exists fuel,
      buildTextVector fuel (p1 ++ p2) grammar text w = Returned text' w')
  <->
  (exists text1 w1,
      (exists fuel, buildTextVector fuel p1 grammar text w = Returned text1 w1) /\
      (exists fuel, buildTextVector fuel p2 grammar text1 w1 = Returned text' w')).
Proof.
  rewrite buildTextVector_returns_iff. split.
  - intros (out & Hex & -> & Hc & He).
    apply expands_app in Hex as (out1 & r1 & out2 & X1 & X2 & ->).
    exists (text ++ out1), (mkWorld r1 (cout w) (cerr w)).
    rewrite !buildTextVector_returns_iff. split.
    + exists out1. cbn. auto.
    + exists out2. cbn. rewrite app_assoc. auto.
  - intros (text1 & w1 & H1 & H2).
    apply buildTextVector_returns_iff in H1 as (out1 & X1 & -> & Hc1 & He1).
    apply buildTextVector_returns_iff in H2 as (out2 & X2 & -> & Hc2 & He2).
    exists (out1 ++ out2). rewrite app_assoc.
    split; [|split; [reflexivity|split; congruence]].
    apply expands_app. eauto 6.
Qed.

(** C6.  [buildTextVector] walks the production in order.  A terminal is
    appended to the text as it is and the walk goes on behind it.  A
    nonterminal is replaced in place: an alternative of its definition is
    drawn, namely the one at the index that the random source draws among
    the alternatives (and every alternative is the one drawn when the
    source draws its index), its expansion is appended by the recursive
    call, and the walk goes on behind the nonterminal with the text and the
    random source as the recursive call left them.  So the walk of two
    productions one after the other is the walk of the first followed by
    the walk of the second, and altogether the texts that
    [buildTextVector] can return are the given text followed by the
    expansion of the production in the sense of the specification, with
    nothing written to the outputs. *)
Theorem buildTextVector_walks_the_production_in_order grammar :
  (forall fuel word next text w,
      word <> EmptyString ->
      is_nonterminal word = false ->
      buildTextVector (S fuel) (word :: next) grammar text w
      = buildTextVector fuel next grammar (text ++ [word]) w) /\
  (forall fuel word next definition text w,
      is_nonterminal word = true ->
      grammar !! word = Some definition ->
      buildTextVector (S fuel) (word :: next) grammar text w
      = (newProduction <- getRandomProduction definition ;;
         text1 <- buildTextVector fuel newProduction grammar text ;;
         buildTextVector fuel next grammar text1) w) /\
  (forall definition w newProduction w',
      getRandomProduction definition w = Returned newProduction w' ->
      newProduction ∈ possibleExpansions definition /\
      possibleExpansions definition
        !! (draws (random w) (consumed (random w))
            mod length (possibleExpansions definition)) = Some newProduction /\
      w' = mkWorld (advance (random w)) (cout w) (cerr w)) /\
  (forall definition i alternative w,
      possibleExpansions definition !! i = Some alternative ->
      draws (random w) (consumed (random w)) = i ->
      getRandomProduction definition w
      = Returned alternative (mkWorld (advance (random w)) (cout w) (cerr w))) /\
  (forall p1 p2 text w text' w',
      (exists fuel,
          buildTextVector fuel (p1 ++ p2) grammar text w = Returned text' w')
      <->
      (exists text1 w1,
          (exists fuel,
              buildTextVector fuel p1 grammar text w = Returned text1 w1) /\
          (exists fuel,
              buildTextVector fuel p2 grammar text1 w1 = Returned text' w'))) /\
  (forall current text w text' w',
      (exists fuel,
          buildTextVector fuel current grammar text w = Returned text' w')
      <->
      (exists out,
          expands grammar current (random w) out (random w') /\
          text' = text ++ out /\ cout w' = cout w /\ cerr w' = cerr w)).
Proof.
  split; [|split; [|split; [|split; [|split]]]].
  - intros fuel word next text w Hne Hnt.
    rewrite buildTextVector_step, Hnt. destruct word; [congruence|reflexivity].
  - intros fuel word next definition text w Hnt Hdef.
    rewrite buildTextVector_step, Hnt, Hdef.
    destruct word; [discriminate|]. unfold bind.
    destruct (getRandomProduction definition w) as [p w1|e w1|];
      reflexivity.
  - intros definition w newProduction w' H.
    apply getRandomProduction_Returned in H as [Hch ->].
    split; [eapply chooses_elem_of, Hch|]. split; [exact Hch|reflexivity].
  - intros definition i alternative w Hi Hdraw.
    apply getRandomProduction_Returned. split; [|reflexivity].
    eapply chooses_index; eassumption.
  - intros. apply buildTextVector_app.
  - intros. apply buildTextVector_returns_iff.
Qed.

Lemma buildTextVector_walks_the_production_in_order_witness :
  buildTextVector 3 ["sat"; "."] example_grammar ["The"; "cat"]
    (initially (always 0))
  = buildTextVector 2 ["."] example_grammar ["The"; "cat"; "sat"]
      (initially (always 0)) /\
  buildTextVector 5 ["<animal>"; "sat"; "."] example_grammar ["The"]
    (initially (always 1))
  = (newProduction <- getRandomProduction animal_definition ;;
     text1 <- buildTextVector 4 newProduction example_grammar ["The"] ;;
     buildTextVector 4 ["sat"; "."] example_grammar text1)
      (initially (always 1)) /\
  ["dog"] ∈ possibleExpansions animal_definition /\
  getRandomProduction animal_definition (initially (always 1))
  = Returned ["dog"]
      (mkWorld (advance (always 1)) EmptyString EmptyString).
Proof.
  destruct (buildTextVector_walks_the_production_in_order example_grammar)
    as (Hterminal & Hnonterminal & Hchoice & Hindex & _).
  split; [|split; [|split]].
  - apply Hterminal; [discriminate|reflexivity].
  - apply Hnonterminal; [reflexivity|vm_compute; reflexivity].
  - apply (Hchoice animal_definition (initially (always 1)) ["dog"]
             (mkWorld (mkRandom (fun _ => 1) 1) EmptyString EmptyString)).
    vm_compute. reflexivity.
  - apply (Hindex animal_definition 1 ["dog"] (initially (always 1)));
      reflexivity.
Defined.

(** ** The empty token *)

Lemma expands_no_empty_token grammar current r out r' :
  expands grammar current r out r' -> EmptyString ∉ current.
Proof.
  induction 1 as [r|word next r out r' Hne Hnt _ IH
                 |word next def p r o1 r1 o2 r2 Hnt Hdef Hch _ _ _ IH].
  - apply not_elem_of_nil.
  - apply not_elem_of_cons. split; [congruence|exact IH].
  - apply not_elem_of_cons. split; [|exact IH].
    intros <-. discriminate.
Qed.

(** C9.  [isTerminal] is undefined at the empty token: [at(0)] throws
    [std::out_of_range] there, and every other token is classified by its
    first character.  So [buildTextVector] throws when it reaches an empty
    token, and returns for no production that contains one. *)
Theorem isTerminal_partial_at_empty_token :
  (forall w,
      isTerminal EmptyString w = Thrown (out_of_range of_basic_string) w) /\
  (forall word w,
      word <> EmptyString ->
      isTerminal word w = Returned (negb (is_nonterminal word)) w) /\
  (forall fuel next grammar text w,
      buildTextVector (S fuel) (EmptyString :: next) grammar text w
      = Thrown (out_of_range of_basic_string) w) /\
  (forall fuel current grammar text w text' w',
      EmptyString ∈ current ->
      buildTextVector fuel current grammar text w <> Returned text' w').
Proof.
  split; [reflexivity|]. split; [|split].
  - intros [|c word] w H; [congruence|reflexivity].
  - intros. rewrite buildTextVector_step. reflexivity.
  - intros fuel current grammar text w text' w' Hin H.
    apply buildTextVector_sound in H as (out & _ & Hex & _).
    eapply expands_no_empty_token; eassumption.
Qed.

Lemma isTerminal_partial_at_empty_token_witness :
  isTerminal "cat" (initially (always 0))
  = Returned true (initially (always 0)) /\
  buildTextVector 10 ["The"; EmptyString; "sat"] example_grammar []
    (initially (always 0))
  <> Returned ["The"; "sat"] (initially (always 0)).
Proof.
  destruct isTerminal_partial_at_empty_token as (_ & Hword & _ & Hnever).
  split.
  - apply (Hword "cat"). discriminate.
  - apply Hnever. vm_compute. right. left.
Defined.

(** ** Undefined nonterminals *)

Lemma buildTextVector_undefined grammar name current r r' :
  grammar !! name = None ->
  requests grammar current r name r' ->
  exists fuel0, forall fuel, fuel0 <= fuel ->
    forall text o e,
      buildTextVector fuel current grammar text (mkWorld r o e)
      = Thrown UndefinedNonterminalError (mkWorld r' o e).
Proof.
  intros Hnone.
  induction 1 as [name next r Hnt
                 |word next r name r' Hne Hnt _ IH
                 |word next def p r name r' Hnt Hdef Hch _ IH
                 |word next def p r out r1 name r' Hnt Hdef Hch Hex _ IH].
  - exists 1. intros [|fuel] Hle text o e; [lia|].
    rewrite buildTextVector_step, Hnt, Hnone.
    destruct name; [discriminate|reflexivity].
  - destruct (IH Hnone) as [f Hf].
    exists (S f). intros [|fuel] Hle text o e; [lia|].
    rewrite buildTextVector_step, Hnt.
    destruct word; [congruence|]. apply Hf. lia.
  - destruct (IH Hnone) as [f Hf].
    exists (S f). intros [|fuel] Hle text o e; [lia|].
    rewrite buildTextVector_step, Hnt, Hdef.
    destruct word; [discriminate|].
    rewrite getRandomProduction_unfold. cbn [random cout cerr].
    unfold chooses in Hch. rewrite Hch, Hf by lia. reflexivity.
  - destruct (IH Hnone) as [f Hf].
    apply buildTextVector_complete in Hex as [f1 Hf1].
    exists (S (max f f1)). intros [|fuel] Hle text o e; [lia|].
    rewrite buildTextVector_step, Hnt, Hdef.
    destruct word; [discriminate|].
    rewrite getRandomProduction_unfold. cbn [random cout cerr].
    unfold chooses in Hch. rewrite Hch, Hf1 by lia. apply Hf. lia.
Qed.

(** C3.  A nonterminal that is not a key of the grammar cannot be expanded:
    [generateText] started from it throws the [std::out_of_range] of
    [map::at] (the [UndefinedNonterminalError] of the specification), and
    so does [buildTextVector], and [generateText] around it, as soon as the
    walk arrives at a reference to it, at any depth of the expansion.  The
    exception reaches the caller; [generateText] has written nothing when
    it is thrown in the first of its three turns. *)
Theorem undefined_nonterminal_is_thrown grammar name :
  grammar !! name = None ->
  (forall fuel w,
      generateText fuel name grammar w = Thrown UndefinedNonterminalError w) /\
  (forall current r r',
      requests grammar current r name r' ->
      exists fuel0, forall fuel, fuel0 <= fuel -> forall text o e,
        buildTextVector fuel current grammar text (mkWorld r o e)
        = Thrown UndefinedNonterminalError (mkWorld r' o e)) /\
  (forall startNonTerminal definition production r r',
      grammar !! startNonTerminal = Some definition ->
      chooses definition r production ->
      requests grammar production (advance r) name r' ->
      exists fuel0, forall fuel, fuel0 <= fuel -> forall o e,
        generateText fuel startNonTerminal grammar (mkWorld r o e)
        = Thrown UndefinedNonterminalError (mkWorld r' o e)).
Proof.
  intros Hnone. split; [|split].
  - intros fuel w. rewrite generateText_start, Hnone. reflexivity.
  - intros current r r'. apply buildTextVector_undefined, Hnone.
  - intros startNonTerminal definition production r r' Hdef Hch Hreq.
    destruct (buildTextVector_undefined _ _ _ _ _ Hnone Hreq) as [f Hf].
    exists f. intros fuel Hle o e.
    rewrite generateText_start, Hdef, getRandomProduction_unfold.
    cbn [random cout cerr]. unfold chooses in Hch. rewrite Hch.
    cbn [for_loop]. unfold bind at 1. turn. rewrite Hf by lia. reflexivity.
Qed.

Lemma undefined_nonterminal_is_thrown_witness :
  generateText 0 "<animal>" start_only_grammar (initially (always 0))
  = Thrown UndefinedNonterminalError (initially (always 0)) /\
  (exists fuel0, forall fuel, fuel0 <= fuel -> forall o e,
      generateText fuel "<start>" start_only_grammar
        (mkWorld (always 0) o e)
      = Thrown UndefinedNonterminalError (mkWorld (advance (always 0)) o e)).
Proof.
  assert (Hnone : start_only_grammar !! "<animal>" = None)
    by (vm_compute; reflexivity).
  destruct (undefined_nonterminal_is_thrown start_only_grammar "<animal>" Hnone)
    as (Hstart & _ & Hnested).
  split; [apply Hstart|].
  apply (Hnested "<start>" start_definition ["The"; "<animal>"; "sat"; "."]).
  - vm_compute. reflexivity.
  - vm_compute. reflexivity.
  - apply requests_past_terminal; [discriminate|reflexivity|].
    apply requests_here. reflexivity.
Defined.

(** ** The three versions of [generateText] *)

(** C1 fails on the program.  [generateText] draws the production of the
    start symbol once, before its loop, and expands that one production in
    each of the three turns: with a source that draws 0, 1, 0, ... the
    three versions are [heads], [heads], [heads] after a single draw, where
    a fresh draw in every repetition gives [heads], [tails], [heads]. *)
Theorem generateText_draws_the_start_production_once :
  generateText 10 "<start>" coin_grammar (initially alternating)
  = Returned tt
      (mkWorld (mkRandom (fun n => n mod 2) 1)
         (version_output 0 ["heads"] +:+ version_output 1 ["heads"]
          +:+ version_output 2 ["heads"])
         EmptyString) /\
  generate_as_specified 10 "<start>" coin_grammar 3 (initially alternating)
  = Returned tt
      (mkWorld (mkRandom (fun n => n mod 2) 3)
         (version_output 0 ["heads"] +:+ version_output 1 ["tails"]
          +:+ version_output 2 ["heads"])
         EmptyString).
Proof. split; vm_compute; reflexivity. Qed.

(** X8.  Whatever the random source, the three versions are expansions of
    one and the same production: a run of [generateText] that returns has
    drawn one alternative of the start definition, before its loop, and
    has expanded that alternative three times, each expansion starting
    with the random source where the one before left it. *)
Lemma generateText_versions_share_the_production fuel startNonTerminal grammar w w' :
  generateText fuel startNonTerminal grammar w = Returned tt w' ->
  exists definition production text1 text2 text3 r1 r2,
    grammar !! startNonTerminal = Some definition /\
    chooses definition (random w) production /\
    expands grammar production (advance (random w)) text1 r1 /\
    expands grammar production r1 text2 r2 /\
    expands grammar production r2 text3 (random w') /\
    cout w' = cout w +:+ version_output 0 text1 +:+ version_output 1 text2
              +:+ version_output 2 text3.
Proof.
  intros H. apply generateText_returns in H
    as (def & p & t1 & r1 & t2 & r2 & t3 & r3 & ? & ? & ? & ? & ? & ->).
  exists def, p, t1, t2, t3, r1, r2. cbn. auto 10.
Qed.

(** ** The example of the specification *)

(** C7.  The example grammar is read as two definitions, those of
    [example_grammar]; with a random source whose every draw is [0] the
    expansion of [<start>] is [The cat sat .], which [generateText] writes
    three times and [main] writes after the count of the definitions;
    without the block of [<animal>], the grammar has the definition of
    [<start>] alone and generation from [<start>] throws the
    [std::out_of_range] of [map::at]. *)
Theorem example_scenario :
  let w := initially (always 0) in
  let sentence := ["The"; "cat"; "sat"; "."] in
  let versions :=
    version_output 0 sentence +:+ version_output 1 sentence
    +:+ version_output 2 sentence in
  readGrammar 3 (from_text example_text) ∅ w
  = Returned (mkStream EmptyString true false, example_grammar) w /\
  size example_grammar = 2 /\
  buildTextVector 10 ["<start>"] example_grammar [] w
  = Returned sentence (mkWorld (mkRandom (fun _ => 0) 2) EmptyString EmptyString) /\
  generateText 10 "<start>" example_grammar w
  = Returned tt (mkWorld (mkRandom (fun _ => 0) 4) versions EmptyString) /\
  main 10 ["rsg"; "example.g"] example_files w
  = Returned 0
      (mkWorld (mkRandom (fun _ => 0) 4)
         ("The grammar file called " +:+ quote +:+ "example.g" +:+ quote
          +:+ " contains 2 definitions." +:+ endl +:+ versions)
         EmptyString) /\
  readGrammar 2 (from_text (unlines start_block)) ∅ w
  = Returned (mkStream EmptyString true false, start_only_grammar) w /\
  buildTextVector 10 ["<start>"] start_only_grammar [] w
  = Thrown UndefinedNonterminalError
      (mkWorld (mkRandom (fun _ => 0) 1) EmptyString EmptyString) /\
  generateText 10 "<start>" start_only_grammar w
  = Thrown UndefinedNonterminalError
      (mkWorld (mkRandom (fun _ => 0) 1) EmptyString EmptyString).
Proof. repeat split; vm_compute; reflexivity. Qed.

(** ** Streams *)

Lemma string_app_cons c (s1 s2 : string) :
  String c s1 +:+ s2 = String c (s1 +:+ s2).
Proof. reflexivity. Qed.

Lemma split_delim_None c s : split_delim c s = None <-> occurs c s = false.
Proof.
  induction s as [|c' s IH]; cbn; [tauto|].
  destruct (Ascii.eqb c' c); cbn; [split; discriminate|].
  destruct (split_delim c s) as [[pre post]|].
  - split; [discriminate|]. intros H. apply IH in H. discriminate.
  - tauto.
Qed.

Lemma split_delim_app c pre post :
  occurs c pre = false ->
  split_delim c (pre +:+ String c post) = Some (pre, post).
Proof.
  induction pre as [|c' pre IH]; intros Hocc.
  - change (split_delim c (String c post) = Some (EmptyString, post)).
    cbn. rewrite Ascii.eqb_refl. reflexivity.
  - cbn in Hocc. apply orb_false_iff in Hocc as [Hne Hocc].
    rewrite string_app_cons. cbn. rewrite Hne, (IH Hocc). reflexivity.
Qed.

Lemma split_delim_Some c s :
  forall pre post,
    split_delim c s = Some (pre, post) ->
    s = pre +:+ String c post /\ occurs c pre = false.
Proof.
  induction s as [|c' s IH]; intros pre post; cbn; [discriminate|].
  destruct (Ascii.eqb_spec c' c) as [->|Hne].
  - intros [= <- <-]. auto.
  - destruct (split_delim c s) as [[pre' post']|]; [|discriminate].
    intros [= <- <-]. destruct (IH _ _ eq_refl) as [-> Hocc].
    split; [reflexivity|]. cbn.
    apply Ascii.eqb_neq in Hne. rewrite Hne. exact Hocc.
Qed.

Lemma getline_from_text text delim :
  getline (from_text text) delim =
  match split_delim delim text with
  | Some (str, rest) => (str, from_text rest)
  | None =>
      (text, mkStream EmptyString true
               (match text with EmptyString => true | _ => false end))
  end.
Proof. reflexivity. Qed.

(** ** One turn of [readGrammar] *)

Lemma readGrammar_step fuel infile grammar w :
  readGrammar (S fuel) infile grammar w =
  let infile1 := snd (getline infile "{") in
  if eofbit infile1 then Returned (infile1, grammar) w
  else
    match Definition_parse (putback infile1 "{") with
    | Some (def, infile2) =>
        readGrammar fuel infile2 (<[getNonterminal def := def]> grammar) w
    | None => Thrown GrammarFormatError w
    end.
Proof.
  cbn [readGrammar]. destruct (getline infile "{") as [uselessText infile1].
  cbn [snd]. destruct (eofbit infile1); [reflexivity|].
  unfold bind, Definition_from_stream.
  destruct (Definition_parse (putback infile1 "{")) as [[def infile2]|];
    reflexivity.
Qed.

(** On a text without an opening brace the loop ends at once. *)
Lemma readGrammar_no_brace fuel text grammar w :
  occurs "{" text = false ->
  readGrammar (S fuel) (from_text text) grammar w
  = Returned
      (mkStream EmptyString true
         (match text with EmptyString => true | _ => false end), grammar) w.
Proof.
  intros H. rewrite readGrammar_step, getline_from_text.
  apply split_delim_None in H. rewrite H. reflexivity.
Qed.

(** On a text with an opening brace the loop reads the block that starts
    there. *)
Lemma readGrammar_brace fuel junk body grammar w :
  occurs "{" junk = false ->
  readGrammar (S fuel) (from_text (junk +:+ String "{" body)) grammar w
  = match Definition_parse (from_text (String "{" body)) with
    | Some (def, infile2) =>
        readGrammar fuel infile2 (<[getNonterminal def := def]> grammar) w
    | None => Thrown GrammarFormatError w
    end.
Proof.
  intros H. rewrite readGrammar_step, getline_from_text.
  rewrite (split_delim_app _ _ _ H). reflexivity.
Qed.

(** [readGrammar] neither writes nor draws, and [GrammarFormatError] is
    the only exception that leaves it. *)
Lemma readGrammar_world fuel :
  forall infile grammar w,
    match readGrammar fuel infile grammar w with
    | Returned _ w' => w' = w
    | Thrown e w' => e = GrammarFormatError /\ w' = w
    | Diverged => True
    end.
Proof.
  induction fuel as [|fuel IH]; intros infile grammar w; [exact I|].
  rewrite readGrammar_step. cbn zeta.
  destruct (eofbit _); [reflexivity|].
  destruct (Definition_parse _) as [[def infile2]|]; [apply IH|auto].
Qed.

(** ** Texts made of definition blocks *)

Lemma readGrammar_blocks text defs :
  blocks text defs ->
  forall fuel grammar w,
    length defs < fuel ->
    exists infile,
      eofbit infile = true /\
      readGrammar fuel (from_text text) grammar w
      = Returned (infile, store grammar defs) w.
Proof.
  induction 1 as [text Hocc|text junk body def rest defs -> Hocc Hread _ IH];
    intros [|fuel] grammar w Hfuel; try (cbn in Hfuel; lia).
  - eexists. split; [|apply readGrammar_no_brace, Hocc]. reflexivity.
  - rewrite (readGrammar_brace _ _ _ _ _ Hocc). unfold reads_block in Hread.
    rewrite Hread. cbn [length] in Hfuel. apply IH. lia.
Qed.

(** A text whose first opening brace does not start a definition block
    that the constructor reads holds no sequence of blocks, and a text is
    split at its first opening brace in one way only. *)
Lemma blocks_brace junk body defs :
  occurs "{" junk = false ->
  blocks (junk +:+ String "{" body) defs ->
  exists def rest defs',
    defs = def :: defs' /\
    Definition_parse (from_text (String "{" body)) = Some (def, from_text rest) /\
    blocks rest defs'.
Proof.
  intros Hocc H.
  inversion H as [text Hnone|text junk' body' def rest defs' Heq Hocc' Hread Hrest];
    subst.
  - apply split_delim_None in Hnone.
    rewrite (split_delim_app _ _ _ Hocc) in Hnone. discriminate.
  - pose proof (split_delim_app _ _ body Hocc) as E.
    rewrite Heq, (split_delim_app _ _ _ Hocc') in E.
    injection E as -> ->. exists def, rest, defs'.
    split; [reflexivity|]. split; [exact Hread|exact Hrest].
Qed.

Lemma string_app_length (s1 s2 : string) :
  String.length (s1 +:+ s2) = String.length s1 + String.length s2.
Proof.
  induction s1 as [|c s1 IH]; [reflexivity|].
  rewrite string_app_cons. cbn [String.length]. rewrite IH. reflexivity.
Qed.

(** ** Reading back the text of a grammar *)

Lemma occurs_app c (s1 s2 : string) :
  occurs c (s1 +:+ s2) = occurs c s1 || occurs c s2.
Proof.
  induction s1 as [|c' s1 IH]; [reflexivity|].
  rewrite string_app_cons. cbn [occurs]. rewrite IH, orb_assoc. reflexivity.
Qed.

Lemma rev_app_rev_app (t acc acc' : string) :
  String.rev_app (String.rev_app t acc) acc' = String.rev_app acc (t +:+ acc').
Proof.
  revert acc acc'. induction t as [|c t IH]; intros acc acc'; [reflexivity|].
  cbn [String.rev_app]. rewrite IH. reflexivity.
Qed.

Lemma words_go_token (token : string) :
  (forall c, occurs c token = true -> Ascii.is_space c = false) ->
  forall acc s,
    String.words_go (Some acc) (token +:+ s)
    = String.words_go (Some (String.rev_app token acc)) s.
Proof.
  induction token as [|c token IH]; intros Hns acc s; [reflexivity|].
  rewrite string_app_cons. cbn [String.words_go].
  rewrite (Hns c) by (cbn; rewrite Ascii.eqb_refl; reflexivity).
  cbn [from_option String.rev_app]. apply IH.
  intros c' Hc'. apply Hns. cbn. rewrite Hc'. apply orb_true_r.
Qed.

Lemma words_go_first (token s : string) :
  token_ok token ->
  String.words_go None (token +:+ s)
  = String.words_go (Some (String.rev_app token EmptyString)) s.
Proof.
  intros [Hne Hns]. destruct token as [|c token]; [congruence|].
  rewrite string_app_cons. cbn [String.words_go].
  rewrite (Hns c) by (cbn; rewrite Ascii.eqb_refl; reflexivity).
  cbn [from_option String.rev_app]. apply words_go_token.
  intros c' Hc'. apply Hns. cbn. rewrite Hc'. apply orb_true_r.
Qed.

Lemma rev_rev_app (token : string) :
  String.rev (String.rev_app token EmptyString) = token.
Proof.
  unfold String.rev. rewrite rev_app_rev_app. cbn. apply string_app_nil_r.
Qed.

Lemma digits_no_space d c :
  occurs c (NilEmpty.string_of_uint d) = true -> Ascii.is_space c = false.
Proof.
  induction d as [|d IH|d IH|d IH|d IH|d IH|d IH|d IH|d IH|d IH|d IH];
    cbn [NilEmpty.string_of_uint occurs]; [discriminate|..];
    intros H; apply orb_true_iff in H as [H|H];
    solve [apply Ascii.eqb_eq in H; subst c; reflexivity | exact (IH H)].
Qed.

Lemma decimal_ok n : token_ok (decimal n).
Proof.
  unfold decimal, NilZero.string_of_uint. split.
  - destruct (Nat.to_uint n); discriminate.
  - intros c. destruct (Nat.to_uint n) eqn:E;
      try (rewrite <- E; apply digits_no_space).
    cbn [occurs]. intros H. apply orb_true_iff in H as [H|H]; [|discriminate].
    apply Ascii.eqb_eq in H. subst c. reflexivity.
Qed.

Lemma uint_of_decimal n :
  Nat.of_uint <$> NilZero.uint_of_string (decimal n) = Some n.
Proof.
  unfold decimal. pose proof (DecimalNat.Unsigned.of_to n) as Hn.
  destruct (Nat.to_uint n) as [| | | | | | | | | |] eqn:E;
    try (rewrite NilZero.usu by discriminate; cbn [fmap option_fmap option_map];
         f_equal; exact Hn).
  cbn in Hn. subst n. reflexivity.
Qed.

Lemma token_ok_no_newline token : token_ok token -> occurs newline token = false.
Proof.
  intros [_ Hns]. destruct (occurs newline token) eqn:E; [|reflexivity].
  apply Hns in E. discriminate.
Qed.

Lemma unwords_no_newline words :
  Forall token_ok words -> occurs newline (unwords words) = false.
Proof.
  induction 1 as [|word rest Hword Hrest IH]; [reflexivity|].
  destruct rest as [|word' rest].
  - apply token_ok_no_newline, Hword.
  - change (unwords (word :: word' :: rest))
      with (word +:+ " " +:+ unwords (word' :: rest)).
    rewrite !occurs_app, IH, (token_ok_no_newline _ Hword). reflexivity.
Qed.

(** A line, its end and what follows are read as the line. *)
Lemma getline_line line rest :
  occurs newline line = false ->
  getline (from_text (line +:+ endl +:+ rest)) newline = (line, from_text rest).
Proof.
  intros H. rewrite getline_from_text.
  change (endl +:+ rest) with (String newline rest).
  rewrite (split_delim_app _ _ _ H). reflexivity.
Qed.

Lemma unlines_app lines1 lines2 :
  unlines (lines1 ++ lines2) = unlines lines1 +:+ unlines lines2.
Proof.
  induction lines1 as [|line lines1 IH]; [reflexivity|].
  cbn [app]. change (unlines (line :: lines1 ++ lines2))
    with (line +:+ endl +:+ unlines (lines1 ++ lines2)).
  rewrite IH.
  change (unlines (line :: lines1)) with (line +:+ endl +:+ unlines lines1).
  rewrite !string_app_assoc. reflexivity.
Qed.

Lemma grammar_text_cons def defs :
  grammar_text (def :: defs) = unlines (block_lines def) +:+ grammar_text defs.
Proof. unfold grammar_text. cbn [mbind list_bind]. apply unlines_app. Qed.

Lemma token_ok_spaceless token :
  token <> EmptyString -> spaceless token = true -> token_ok token.
Proof.
  intros Hne Hs. split; [exact Hne|]. clear Hne.
  induction token as [|c' token IH]; intros c Hc; [discriminate|].
  cbn [spaceless] in Hs. apply andb_true_iff in Hs as [Hc' Hs].
  cbn [occurs] in Hc. apply orb_true_iff in Hc as [Hc|Hc].
  - apply Ascii.eqb_eq in Hc. subst c'. apply negb_true_iff, Hc'.
  - exact (IH Hs c Hc).
Qed.

(** ** The block format and what the constructor reads *)

Lemma good_from_text infile :
  good infile = true -> infile = from_text (buffer infile).
Proof.
  destruct infile as [text [] []]; cbn; intros H; try discriminate. reflexivity.
Qed.

(** A [getline] that leaves the stream good found its delimiter. *)
Lemma getline_good infile delim line infile' :
  getline infile delim = (line, infile') ->
  good infile' = true ->
  exists rest,
    infile' = from_text rest /\ good infile = true /\
    buffer infile = line +:+ String delim rest /\ occurs delim line = false.
Proof.
  unfold getline. destruct (good infile) eqn:Hgood.
  - destruct (split_delim delim (buffer infile)) as [[str rest]|] eqn:E.
    + intros [= <- <-] _. apply split_delim_Some in E as [E Hocc].
      exists rest. auto.
    + intros [= <- <-]. discriminate.
  - intros [= <- <-]. unfold good. cbn. rewrite orb_true_r. discriminate.
Qed.

Lemma spaceless_token_ok token : token_ok token -> spaceless token = true.
Proof.
  intros [_ Hns]. induction token as [|c token IH]; [reflexivity|].
  cbn [spaceless]. rewrite (Hns c), IH; [reflexivity| |].
  - intros c' Hc'. apply Hns. cbn. rewrite Hc'. apply orb_true_r.
  - cbn. rewrite Ascii.eqb_refl. reflexivity.
Qed.

Lemma token_formb_format token :
  token_formb token = true <-> format_token token.
Proof.
  unfold token_formb, format_token. rewrite !andb_true_iff, !negb_true_iff.
  split.
  - intros [[[Hne Hs] Hopen] Hclose]. split; [|auto].
    apply token_ok_spaceless; [|exact Hs].
    intros ->. discriminate.
  - intros [Hok [Hopen Hclose]]. repeat split; try assumption.
    + destruct Hok as [Hne _]. destruct token; [congruence|reflexivity].
    + apply spaceless_token_ok, Hok.
Qed.

Lemma forallb_token_formb p :
  forallb token_formb p = true <-> Forall format_token p.
Proof.
  induction p as [|token p IH]; cbn [forallb].
  - split; [constructor|reflexivity].
  - rewrite andb_true_iff, Forall_cons, IH, token_formb_format. reflexivity.
Qed.

Lemma format_token_no_space token :
  format_token token -> occurs " " token = false.
Proof.
  intros [[_ Hns] _]. destruct (occurs " " token) eqn:E; [|reflexivity].
  apply Hns in E. discriminate.
Qed.

(** *** Lines and their fields *)

Lemma split_on_nonempty delim s : split_on delim s <> [].
Proof.
  destruct s as [|c s]; cbn; [discriminate|].
  destruct (Ascii.eqb c delim); [discriminate|].
  destruct (split_on delim s); discriminate.
Qed.

Lemma unwords_cons c field fields :
  unwords (String c field :: fields) = String c (unwords (field :: fields)).
Proof. destruct fields; reflexivity. Qed.

(** The fields of a line, joined by single spaces, are the line. *)
Lemma unwords_split_on line : unwords (split_on " " line) = line.
Proof.
  induction line as [|c line IH]; [reflexivity|]. cbn [split_on].
  pose proof (split_on_nonempty " " line) as Hne.
  destruct (split_on " " line) as [|field fields]; [congruence|].
  destruct (Ascii.eqb_spec c " ") as [->|_].
  - change (unwords (EmptyString :: field :: fields))
      with (String " " (unwords (field :: fields))).
    rewrite IH. reflexivity.
  - rewrite unwords_cons, IH. reflexivity.
Qed.

Lemma split_on_field field s :
  occurs " " field = false ->
  split_on " " (field +:+ String " " s) = field :: split_on " " s.
Proof.
  induction field as [|c field IH]; intros Hocc; [reflexivity|].
  cbn [occurs] in Hocc. apply orb_false_iff in Hocc as [Hne Hocc].
  rewrite string_app_cons. cbn [split_on]. rewrite Hne, (IH Hocc). reflexivity.
Qed.

Lemma split_on_last field :
  occurs " " field = false -> split_on " " field = [field].
Proof.
  induction field as [|c field IH]; intros Hocc; [reflexivity|].
  cbn [occurs] in Hocc. apply orb_false_iff in Hocc as [Hne Hocc].
  cbn [split_on]. rewrite Hne, (IH Hocc). reflexivity.
Qed.

(** The words of a production are the fields of its line. *)
Lemma split_on_unwords p :
  p <> [] -> Forall format_token p -> split_on " " (unwords p) = p.
Proof.
  intros Hne Hp. induction Hp as [|token p Htoken Hp IH]; [congruence|].
  apply format_token_no_space in Htoken.
  destruct p as [|token' p].
  - apply split_on_last, Htoken.
  - change (unwords (token :: token' :: p))
      with (token +:+ String " " (unwords (token' :: p))).
    rewrite (split_on_field _ _ Htoken), IH by discriminate. reflexivity.
Qed.

Lemma Forall_format_token_ok p : Forall format_token p -> Forall token_ok p.
Proof.
  intros H. eapply Forall_impl; [exact H|]. intros token [Hok _]. exact Hok.
Qed.

(** *** Production lines *)

Lemma Production_parse_Some text p infile' :
  Production_parse (from_text text) = Some (p, infile') <->
  exists rest,
    infile' = from_text rest /\ format_production p /\
    text = unwords p +:+ endl +:+ rest.
Proof.
  unfold Production_parse. split.
  - destruct (getline (from_text text) newline) as [line infile1] eqn:E.
    destruct (good infile1) eqn:Hgood; [|discriminate].
    destruct (forallb token_formb (split_on " " line)) eqn:Hp; [|discriminate].
    cbn [andb]. intros [= <- <-].
    destruct (getline_good _ _ _ _ E Hgood) as (rest & -> & _ & Htext & _).
    exists rest. split; [reflexivity|]. split.
    + split; [apply split_on_nonempty|apply forallb_token_formb, Hp].
    + rewrite unwords_split_on. exact Htext.
  - intros (rest & -> & [Hne Hp] & ->).
    rewrite getline_line
      by (apply unwords_no_newline, Forall_format_token_ok, Hp).
    rewrite (split_on_unwords _ Hne Hp).
    apply forallb_token_formb in Hp. rewrite Hp. reflexivity.
Qed.

Lemma unlines_cons line lines :
  unlines (line :: lines) = line +:+ endl +:+ unlines lines.
Proof. reflexivity. Qed.

Lemma read_productions_Some K :
  forall text ps infile',
    read_productions K (from_text text) = Some (ps, infile') <->
    exists rest,
      infile' = from_text rest /\ length ps = K /\
      Forall format_production ps /\
      text = unlines (unwords <$> ps) +:+ rest.
Proof.
  induction K as [|K IH]; intros text ps infile'; cbn [read_productions].
  - split.
    + intros [= <- <-]. exists text. repeat split. constructor.
    + intros (rest & -> & Hlen & _ & ->).
      destruct ps; [reflexivity|discriminate].
  - split.
    + destruct (Production_parse (from_text text)) as [[p infile1]|] eqn:E1;
        [|discriminate].
      apply Production_parse_Some in E1 as (rest1 & -> & Hp & ->).
      destruct (read_productions K (from_text rest1)) as [[ps' infile2]|] eqn:E2;
        [|discriminate].
      apply IH in E2 as (rest & -> & Hlen & Hps & ->).
      intros [= <- <-]. exists rest. split; [reflexivity|].
      split; [cbn; lia|]. split; [constructor; assumption|].
      rewrite fmap_cons, unlines_cons, !string_app_assoc. reflexivity.
    + intros (rest & -> & Hlen & Hps & ->).
      destruct ps as [|p ps]; [discriminate|].
      apply Forall_cons in Hps as [Hp Hps].
      rewrite fmap_cons, unlines_cons, !string_app_assoc.
      assert (E1 : Production_parse
                     (from_text (unwords p +:+ endl +:+
                                 unlines (unwords <$> ps) +:+ rest))
                   = Some (p, from_text (unlines (unwords <$> ps) +:+ rest))).
      { apply Production_parse_Some. eexists. repeat split; apply Hp. }
      rewrite E1.
      assert (E2 : read_productions K
                     (from_text (unlines (unwords <$> ps) +:+ rest))
                   = Some (ps, from_text rest)).
      { apply IH. exists rest. repeat split; [|assumption].
        cbn in Hlen. lia. }
      rewrite E2. reflexivity.
Qed.

(** *** The count line *)

Lemma read_count_Some line K :
  read_count line = Some K <-> K <> 0 /\ line = decimal K.
Proof.
  unfold read_count, decimal. split.
  - intros H.
    assert (Hzero : forall rest, line <> String "0" rest).
    { intros rest ->. discriminate. }
    assert (Hread : Nat.of_uint <$> NilZero.uint_of_string line = Some K).
    { destruct line as [|c line]; [discriminate|].
      destruct (Ascii.eqb_spec c "0") as [->|Hne]; [discriminate|].
      revert H.
      destruct c as [[] [] [] [] [] [] [] []]; try (intros H; exact H).
      congruence. }
    clear H.
    destruct (NilZero.uint_of_string line) as [d|] eqn:E; [|discriminate].
    injection Hread as <-. pose proof (NilZero.sus _ _ E) as Hline.
    assert (Hd : Decimal.nzhead d = d /\ d <> Decimal.Nil).
    { split.
      - destruct d; try reflexivity. cbn in Hline.
        destruct (Hzero _ (eq_sym Hline)).
      - intros ->. exact (NilZero.uint_of_string_nonnil _ E). }
    destruct Hd as [Hhead Hnil].
    assert (Hto : Nat.to_uint (Nat.of_uint d) = d).
    { rewrite DecimalNat.Unsigned.to_of, DecimalFacts.unorm_nzhead;
        rewrite Hhead; [reflexivity|exact Hnil]. }
    rewrite Hto. split; [|symmetry; exact Hline].
    intros Hnought. rewrite Hnought in Hto. cbn in Hto. subst d.
    cbn in Hline. destruct (Hzero _ (eq_sym Hline)).
  - intros [HK ->].
    pose proof (DecimalNat.Unsigned.of_to K) as Hof.
    pose proof (DecimalNat.Unsigned.to_of (Nat.to_uint K)) as Hto.
    rewrite Hof in Hto.
    assert (Hd : forall d, Nat.to_uint K <> Decimal.D0 d).
    { intros d Hd. rewrite Hd in Hto. unfold Decimal.unorm in Hto.
      destruct (Decimal.nzhead (Decimal.D0 d)) as [| | | | | | | | | |] eqn:E;
        try discriminate.
      - injection Hto as ->. rewrite Hd in Hof. cbn in Hof. congruence.
      - exact (DecimalFacts.nzhead_nonzero _ _ E). }
    assert (Hnil : Nat.to_uint K <> Decimal.Nil).
    { intros Hnil. rewrite Hnil in Hof. cbn in Hof. congruence. }
    pose proof (uint_of_decimal K) as Hread. unfold decimal in Hread.
    destruct (Nat.to_uint K) as [| | | | | | | | | |] eqn:E;
      [congruence|destruct (Hd _ eq_refl)|exact Hread..].
Qed.

(** *** Blocks *)

Lemma get_brace text infile' :
  get (from_text text) = (Some "}"%char, infile') <->
  exists rest, infile' = from_text rest /\ text = String "}" rest.
Proof.
  unfold get. cbn. destruct text as [|c rest]; split.
  - discriminate.
  - intros (rest & _ & H). discriminate.
  - intros [= -> <-]. exists rest. auto.
  - intros (rest' & -> & [= -> ->]). reflexivity.
Qed.

(** The constructor reads a definition off a text exactly when the text
    starts with the block of the definition and the definition is one of
    the format. *)
Lemma Definition_parse_Some body def infile' :
  Definition_parse (from_text (String "{" body)) = Some (def, infile') <->
  exists rest,
    infile' = from_text rest /\ format_definition def /\
    String "{" body = block_text def +:+ rest.
Proof.
  unfold Definition_parse. rewrite getline_from_text.
  change (split_delim "{" (String "{" body)) with (Some (EmptyString, body)).
  split.
  - destruct (getline (from_text body) newline) as [opening infile2] eqn:E2.
    destruct (getline infile2 newline) as [name infile3] eqn:E3.
    destruct (getline infile3 newline) as [count infile4] eqn:E4.
    destruct (good infile4) eqn:Hgood; [|discriminate].
    destruct (String.eqb_spec opening EmptyString) as [->|]; [|discriminate].
    destruct (token_formb name) eqn:Hname; [|discriminate].
    destruct (is_nonterminal name) eqn:Hnt; [|discriminate].
    cbn [andb].
    destruct (read_count count) as [K|] eqn:Hcount; [|discriminate].
    destruct (getline_good _ _ _ _ E4 Hgood) as (r4 & -> & Hgood3 & H3 & _).
    destruct (getline_good _ _ _ _ E3 Hgood3) as (r3 & -> & Hgood2 & H2 & _).
    destruct (getline_good _ _ _ _ E2 Hgood2) as (r2 & -> & _ & H1 & _).
    cbn [buffer from_text] in H1, H2, H3. subst body r2 r3.
    destruct (read_productions K (from_text r4)) as [[ps infile5]|] eqn:E5;
      [|discriminate].
    apply read_productions_Some in E5 as (r5 & -> & Hlen & Hps & ->).
    destruct (get (from_text r5)) as [[c|] infile6] eqn:E6; [|discriminate].
    destruct (Ascii.eqb_spec c "}") as [->|Hne].
    + intros [= <- <-]. apply get_brace in E6 as (rest & -> & ->).
      apply read_count_Some in Hcount as [HK ->].
      exists rest. split; [reflexivity|]. split.
      * split; [apply token_formb_format, Hname|]. split; [exact Hnt|].
        cbn [possibleExpansions]. split; [|exact Hps].
        intros ->. cbn in Hlen. congruence.
      * unfold block_text. cbn [nonterminal possibleExpansions].
        rewrite unlines_app, !unlines_cons, Hlen, !string_app_assoc.
        reflexivity.
    + intros H. exfalso. revert H.
      destruct c as [[] [] [] [] [] [] [] []]; try discriminate.
      congruence.
  - intros (rest & -> & (Hname & Hnt & Hne & Hps) & Hbody).
    destruct def as [name ps].
    unfold block_text in Hbody. cbn [nonterminal possibleExpansions] in *.
    rewrite unlines_app, !unlines_cons, !string_app_assoc in Hbody.
    injection Hbody as ->.
    pose proof (token_ok_no_newline _ (proj1 Hname)) as Hline.
    change (EmptyString +:+ ?s) with s.
    change (getline (from_text (endl +:+ ?s)) newline)
      with (EmptyString, from_text s).
    cbn beta iota zeta. rewrite (getline_line _ _ Hline).
    assert (Hdigits : occurs newline (decimal (length ps)) = false).
    { apply token_ok_no_newline, decimal_ok. }
    rewrite (getline_line _ _ Hdigits).
    apply token_formb_format in Hname. rewrite Hname, Hnt.
    cbn [good from_text eofbit failbit orb negb andb String.eqb].
    assert (Hcount : read_count (decimal (length ps)) = Some (length ps)).
    { apply read_count_Some. split; [|reflexivity].
      destruct ps; [congruence|discriminate]. }
    rewrite Hcount.
    assert (E5 : read_productions (length ps)
                   (from_text (unlines (unwords <$> ps) +:+ "}" +:+ rest))
                 = Some (ps, from_text ("}" +:+ rest))).
    { apply read_productions_Some. eexists. repeat split. exact Hps. }
    change (EmptyString +:+ ?s) with s.
    rewrite E5. reflexivity.
Qed.

(** A definition that was read took text off the stream and left the
    stream in good state. *)
Lemma Definition_parse_progress body def infile' :
  Definition_parse (from_text (String "{" body)) = Some (def, infile') ->
  eofbit infile' = false /\ failbit infile' = false /\
  String.length (buffer infile') < String.length (String "{" body).
Proof.
  intros H. apply Definition_parse_Some in H as (rest & -> & _ & ->).
  repeat split. cbn [buffer from_text]. unfold block_text.
  rewrite !string_app_length. cbn. lia.
Qed.

(** ** Texts that conform to the format *)

(** Every block takes text. *)
Lemma blocks_length text defs :
  blocks text defs -> length defs <= String.length text.
Proof.
  induction 1 as [text Hocc|text junk body def rest defs -> Hocc Hread _ IH];
    cbn [length]; [lia|].
  apply Definition_parse_progress in Hread as (_ & _ & Hshort).
  unfold from_text in Hshort. cbn [buffer String.length] in Hshort.
  rewrite string_app_length. cbn [String.length]. lia.
Qed.

Lemma block_text_brace def :
  block_text def
  = String "{" (endl +:+ unlines (nonterminal def
                                   :: decimal (length (possibleExpansions def))
                                   :: (unwords <$> possibleExpansions def))
                +:+ "}").
Proof.
  unfold block_text. cbn [app]. rewrite unlines_cons, !string_app_assoc.
  reflexivity.
Qed.

(** The texts that the constructor reads block after block are the texts
    that conform to the format. *)
Lemma blocks_conforms text defs : blocks text defs <-> conforms text defs.
Proof.
  split.
  - induction 1 as [text Hocc|text junk body def rest defs -> Hocc Hread _ IH].
    + apply conforms_end, Hocc.
    + apply Definition_parse_Some in Hread as (rest' & [= <-] & Hdef & ->).
      apply conforms_block; assumption.
  - induction 1 as [junk Hocc|junk def rest defs Hocc Hdef _ IH].
    + apply blocks_end, Hocc.
    + rewrite block_text_brace, string_app_cons.
      eapply blocks_more; [reflexivity|exact Hocc| |exact IH].
      apply Definition_parse_Some. exists rest.
      split; [reflexivity|]. split; [exact Hdef|].
      rewrite block_text_brace. reflexivity.
Qed.

(** With fuel beyond the length of the text [readGrammar] ends: it returns
    the stored definitions at the end of the stream when the text conforms
    to the format, and throws [GrammarFormatError] when it does not. *)
Lemma readGrammar_total fuel :
  forall text grammar w,
    String.length text < fuel ->
    (exists defs infile,
        conforms text defs /\ eofbit infile = true /\
        readGrammar fuel (from_text text) grammar w
        = Returned (infile, store grammar defs) w) \/
    (malformed text /\
     readGrammar fuel (from_text text) grammar w = Thrown GrammarFormatError w).
Proof.
  induction fuel as [|fuel IH]; intros text grammar w Hlen; [lia|].
  destruct (split_delim "{" text) as [[junk body]|] eqn:E.
  - apply split_delim_Some in E as [-> Hocc].
    rewrite (readGrammar_brace _ _ _ _ _ Hocc).
    destruct (Definition_parse (from_text (String "{" body)))
      as [[def infile2]|] eqn:Hparse.
    + destruct (Definition_parse_progress _ _ _ Hparse) as (He & Hf & Hshort).
      destruct infile2 as [rest e f]. cbn in He, Hf, Hshort. subst e f.
      assert (Hrest : String.length rest < fuel).
      { rewrite string_app_length in Hlen. cbn [String.length] in Hlen. lia. }
      destruct (IH rest (<[getNonterminal def := def]> grammar) w Hrest)
        as [(defs & infile & Hconf & Heof & Hrun)|[Hbad Hrun]].
      * left. exists (def :: defs), infile. split; [|split; assumption].
        apply blocks_conforms. eapply blocks_more; eauto.
        apply blocks_conforms, Hconf.
      * right. split; [|exact Hrun]. intros defs Hconf.
        apply blocks_conforms, (blocks_brace _ _ _ Hocc) in Hconf
          as (def' & rest' & defs' & _ & Hparse' & Hrest').
        rewrite Hparse in Hparse'. injection Hparse' as <- <-.
        apply blocks_conforms in Hrest'. exact (Hbad _ Hrest').
    + right. split; [|reflexivity]. intros defs Hconf.
      apply blocks_conforms, (blocks_brace _ _ _ Hocc) in Hconf
        as (def' & rest' & defs' & _ & Hparse' & _).
      congruence.
  - apply split_delim_None in E. left. exists []. eexists.
    split; [apply conforms_end, E|].
    split; [|apply readGrammar_no_brace, E]. reflexivity.
Qed.

Lemma unlines_block_lines def :
  unlines (block_lines def) = block_text def +:+ endl.
Proof.
  unfold block_lines, block_text.
  rewrite app_assoc, unlines_app, string_app_assoc. reflexivity.
Qed.

Lemma conforms_grammar_text defs :
  Forall format_definition defs ->
  forall junk,
    occurs "{" junk = false ->
    conforms (junk +:+ grammar_text defs) defs.
Proof.
  induction 1 as [|def defs Hdef _ IH]; intros junk Hjunk.
  - unfold grammar_text. cbn. rewrite string_app_nil_r.
    apply conforms_end, Hjunk.
  - rewrite grammar_text_cons, unlines_block_lines, string_app_assoc.
    apply conforms_block; [exact Hjunk|exact Hdef|]. apply IH. reflexivity.
Qed.

(** The text of [N] definitions of the format holds these [N] blocks. *)
Lemma blocks_grammar_text defs :
  Forall format_definition defs ->
  forall junk,
    occurs "{" junk = false ->
    blocks (junk +:+ grammar_text defs) defs.
Proof.
  intros Hdefs junk Hjunk. apply blocks_conforms, conforms_grammar_text; assumption.
Qed.

(** Reading the text of a grammar stores its definitions. *)
Lemma readGrammar_grammar_text defs fuel w :
  Forall format_definition defs ->
  length defs < fuel ->
  exists infile,
    readGrammar fuel (from_text (grammar_text defs)) ∅ w
    = Returned (infile, store ∅ defs) w.
Proof.
  intros Hok Hfuel.
  pose proof (blocks_grammar_text defs Hok EmptyString eq_refl) as Hblocks.
  change (EmptyString +:+ grammar_text defs) with (grammar_text defs) in Hblocks.
  destruct (readGrammar_blocks _ _ Hblocks fuel ∅ w Hfuel) as (infile & _ & H).
  exists infile. exact H.
Qed.

Lemma format_definitionb_format def :
  format_definitionb def = true -> format_definition def.
Proof.
  unfold format_definitionb, format_definition.
  rewrite !andb_true_iff, !negb_true_iff.
  intros [[[Hname Hnt] Hne] Hps]. split; [apply token_formb_format, Hname|].
  split; [exact Hnt|]. split.
  - intros Hnil. rewrite Hnil in Hne. discriminate.
  - clear Hne. induction (possibleExpansions def) as [|p ps IH];
      [constructor|].
    cbn [forallb] in Hps. rewrite !andb_true_iff, negb_true_iff in Hps.
    destruct Hps as [[Hne Hp] Hps]. constructor; [|exact (IH Hps)].
    split; [|apply forallb_token_formb, Hp].
    intros Hnil. rewrite Hnil in Hne. discriminate.
Qed.

(** ** The stored definitions *)

Lemma store_snoc grammar defs def :
  store grammar (defs ++ [def])
  = <[getNonterminal def := def]> (store grammar defs).
Proof. unfold store. rewrite foldl_app. reflexivity. Qed.

Lemma dom_store grammar defs :
  dom (store grammar defs)
  = dom grammar ∪ list_to_set (getNonterminal <$> defs).
Proof.
  induction defs as [|def defs IH] using rev_ind.
  - cbn. rewrite union_empty_r_L. reflexivity.
  - rewrite store_snoc, dom_insert_L, IH, fmap_app, list_to_set_app_L.
    cbn. rewrite union_empty_r_L, (union_comm_L {[getNonterminal def]}).
    rewrite union_assoc_L. reflexivity.
Qed.

(** One entry for each name that occurs among the blocks. *)
Lemma size_store defs :
  size (store ∅ defs) = length (remove_dups (getNonterminal <$> defs)).
Proof.
  rewrite <- size_dom, dom_store, dom_empty_L, union_empty_l_L.
  transitivity
    (size (list_to_set (remove_dups (getNonterminal <$> defs)) : gset string)).
  - f_equal. apply set_eq. intros name.
    rewrite !elem_of_list_to_set, elem_of_remove_dups. reflexivity.
  - apply size_list_to_set, NoDup_remove_dups.
Qed.

Lemma remove_dups_NoDup (names : list string) :
  NoDup names -> remove_dups names = names.
Proof.
  induction 1 as [|name names Hnotin _ IH]; [reflexivity|].
  cbn. destruct (decide_rel elem_of name names); [contradiction|].
  rewrite IH. reflexivity.
Qed.

(** The entry of a name is the last block of that name. *)
Lemma lookup_store grammar defs name :
  store grammar defs !! name
  = match last (filter (fun def => getNonterminal def = name) defs) with
    | Some def => Some def
    | None => grammar !! name
    end.
Proof.
  induction defs as [|def defs IH] using rev_ind; [reflexivity|].
  rewrite store_snoc, filter_app.
  destruct (decide (getNonterminal def = name)) as [Heq|Hne].
  - rewrite filter_cons_True, filter_nil, last_snoc by exact Heq.
    rewrite <- Heq. apply lookup_insert_eq.
  - rewrite filter_cons_False, filter_nil, app_nil_r by exact Hne.
    rewrite lookup_insert_ne by exact Hne. exact IH.
Qed.

(** C4, as the program has it.  A text of [N] definition blocks is read
    into a map with one entry for each nonterminal name that occurs among
    the blocks; under each name stands the last block of that name, and no
    error is raised for the earlier ones.  The map has [N] entries exactly
    when the [N] names differ from one another. *)
Theorem readGrammar_keeps_the_last_block_of_each_name text defs :
  blocks text defs ->
  exists grammar,
    (forall fuel w, length defs < fuel ->
       exists infile,
         readGrammar fuel (from_text text) ∅ w = Returned (infile, grammar) w) /\
    size grammar = length (remove_dups (getNonterminal <$> defs)) /\
    (size grammar = length defs <-> NoDup (getNonterminal <$> defs)) /\
    (forall name,
        grammar !! name
        = last (filter (fun def => getNonterminal def = name) defs)).
Proof.
  intros H. exists (store ∅ defs). split; [|split; [|split]].
  - intros fuel w Hfuel.
    destruct (readGrammar_blocks _ _ H fuel ∅ w Hfuel) as (infile & _ & Hrun).
    exists infile. exact Hrun.
  - apply size_store.
  - rewrite size_store. split.
    + intros Hlen. rewrite <- (length_fmap getNonterminal) in Hlen.
      pose proof (NoDup_remove_dups (getNonterminal <$> defs)) as Hnd.
      assert (Hsub : remove_dups (getNonterminal <$> defs)
                     ⊆+ getNonterminal <$> defs).
      { apply NoDup_submseteq; [exact Hnd|].
        intros name. apply elem_of_remove_dups. }
      apply submseteq_length_Permutation in Hsub; [|lia].
      rewrite <- Hsub. exact Hnd.
    + intros Hnd. rewrite (remove_dups_NoDup _ Hnd). apply length_fmap.
  - intros name. rewrite lookup_store, lookup_empty.
    destruct (last _); reflexivity.
Qed.

Lemma duplicate_text_blocks :
  blocks duplicate_text
    [mkDefinition "<x>" [["a"]]; mkDefinition "<x>" [["b"]]].
Proof.
  eapply (blocks_more _ EmptyString
            (endl +:+ unlines (tail first_x_block ++ second_x_block)) _
            (endl +:+ unlines second_x_block));
    [reflexivity|reflexivity|vm_compute; reflexivity|].
  eapply (blocks_more _ endl (endl +:+ unlines (tail second_x_block)) _ endl);
    [reflexivity|reflexivity|vm_compute; reflexivity|].
  apply blocks_end. reflexivity.
Qed.

(** Against C4 as stated, with its [N] entries for [N] blocks.  Two
    blocks for [<x>] make a map with one entry, not two. *)
Lemma two_blocks_of_one_name_make_one_entry :
  exists defs infile grammar,
    blocks duplicate_text defs /\
    length defs = 2 /\
    readGrammar 3 (from_text duplicate_text) ∅ (initially (always 0))
    = Returned (infile, grammar) (initially (always 0)) /\
    size grammar = 1 /\
    size grammar <> length defs.
Proof.
  exists [mkDefinition "<x>" [["a"]]; mkDefinition "<x>" [["b"]]],
         (mkStream EmptyString true false),
         (<["<x>" := mkDefinition "<x>" [["b"]]]> ∅).
  split; [exact duplicate_text_blocks|]. split; [reflexivity|].
  split; [vm_compute; reflexivity|]. split; [reflexivity|].
  vm_compute. discriminate.
Qed.

Lemma readGrammar_keeps_the_last_block_of_each_name_witness :
  exists grammar,
    (forall fuel w, 2 < fuel ->
       exists infile,
         readGrammar fuel (from_text duplicate_text) ∅ w
         = Returned (infile, grammar) w) /\
    size grammar = 1 /\
    grammar !! "<x>" = Some (mkDefinition "<x>" [["b"]]).
Proof.
  destruct (readGrammar_keeps_the_last_block_of_each_name
              duplicate_text _ duplicate_text_blocks)
    as (grammar & Hrun & Hsize & _ & Hlast).
  exists grammar. split; [exact Hrun|]. split.
  - rewrite Hsize. vm_compute. reflexivity.
  - rewrite Hlast. vm_compute. reflexivity.
Defined.

(** ** Format errors *)

(** C8.  A text conforms to the definition-block format when it is a
    sequence of blocks, each made of the line of the opening brace, the
    line of a nonterminal name, the line of a positive count [K], [K]
    production lines of tokens separated by single spaces and the closing
    brace, with text free of opening braces before, between and after the
    blocks.  Reading a text, with fuel beyond its length, ends in one of
    two ways, and the format decides which.  A text that conforms is read
    to the end of the stream: [readGrammar] returns without an error once
    no opening brace remains, having stored the definitions of the blocks,
    and returns the grammar as it was given when the text holds no opening
    brace at all.  A text that does not conform makes the constructor fail,
    and [readGrammar], which checks nothing itself, lets the
    [GrammarFormatError] through; it throws on no other text. *)
Theorem readGrammar_fails_on_malformed_text fuel text grammar w :
  String.length text < fuel ->
  ((exists defs, conforms text defs) \/ malformed text) /\
  (malformed text <->
     readGrammar fuel (from_text text) grammar w = Thrown GrammarFormatError w) /\
  (forall defs, conforms text defs ->
     exists infile,
       eofbit infile = true /\
       readGrammar fuel (from_text text) grammar w
       = Returned (infile, store grammar defs) w) /\
  (occurs "{" text = false ->
     exists infile,
       eofbit infile = true /\
       readGrammar fuel (from_text text) grammar w = Returned (infile, grammar) w).
Proof.
  intros Hlen.
  assert (Hreturns : forall defs, conforms text defs ->
            exists infile,
              eofbit infile = true /\
              readGrammar fuel (from_text text) grammar w
              = Returned (infile, store grammar defs) w).
  { intros defs Hconf. apply blocks_conforms in Hconf.
    apply readGrammar_blocks; [exact Hconf|].
    apply blocks_length in Hconf. lia. }
  split; [|split; [|split]].
  - destruct (readGrammar_total fuel text grammar w Hlen)
      as [(defs & _ & Hconf & _)|[Hbad _]]; [left; eauto|right; exact Hbad].
  - destruct (readGrammar_total fuel text grammar w Hlen)
      as [(defs & infile & Hconf & _ & Hrun)|[Hbad Hrun]].
    + split.
      * intros Hbad. destruct (Hbad _ Hconf).
      * rewrite Hrun. discriminate.
    + split; [intros _; exact Hrun|intros _; exact Hbad].
  - exact Hreturns.
  - intros Hocc. apply (Hreturns []), conforms_end, Hocc.
Qed.

Lemma readGrammar_fails_on_malformed_text_witness :
  Forall (fun text =>
            malformed text /\
            readGrammar 100 (from_text text) ∅ (initially (always 0))
            = Thrown GrammarFormatError (initially (always 0)))
    texts_out_of_format /\
  conforms example_text [start_definition; animal_definition] /\
  (exists infile,
      eofbit infile = true /\
      readGrammar 100 (from_text example_text) ∅ (initially (always 0))
      = Returned (infile, example_grammar) (initially (always 0))) /\
  (exists infile,
      eofbit infile = true /\
      readGrammar 100 (from_text "no definitions here") example_grammar
        (initially (always 0))
      = Returned (infile, example_grammar) (initially (always 0))).
Proof.
  assert (Hexample : conforms example_text [start_definition; animal_definition]).
  { change example_text
      with (EmptyString +:+ block_text start_definition +:+
            (endl +:+ block_text animal_definition +:+ endl)).
    apply conforms_block;
      [reflexivity|apply format_definitionb_format; reflexivity|].
    apply conforms_block;
      [reflexivity|apply format_definitionb_format; reflexivity|].
    apply conforms_end. reflexivity. }
  split; [|split; [exact Hexample|split]].
  - repeat
      (constructor;
       [match goal with
        | |- malformed ?text /\ _ =>
            assert (Hthrown : readGrammar 100 (from_text text) ∅
                                (initially (always 0))
                              = Thrown GrammarFormatError (initially (always 0)))
              by (vm_compute; reflexivity);
            split; [|exact Hthrown];
            apply (readGrammar_fails_on_malformed_text 100 text ∅
                     (initially (always 0)));
            [vm_compute; lia|exact Hthrown]
        end|]).
    constructor.
  - destruct (readGrammar_fails_on_malformed_text 100 example_text ∅
                (initially (always 0)))
      as (_ & _ & Hreturns & _); [vm_compute; lia|].
    exact (Hreturns _ Hexample).
  - destruct (readGrammar_fails_on_malformed_text 100 "no definitions here"
                example_grammar (initially (always 0)))
      as (_ & _ & _ & Hreturns); [vm_compute; lia|].
    apply Hreturns. reflexivity.
Defined.

(** ** [main] *)

Lemma main_after_reading fuel program path more fs content infile grammar w :
  fs path = Some content ->
  readGrammar fuel (from_text content) ∅ w = Returned (infile, grammar) w ->
  main fuel (program :: path :: more) fs w
  = match generateText fuel "<start>" grammar
            (mkWorld (random w) (cout w +:+ count_line path grammar) (cerr w)) with
    | Returned _ w' => Returned 0 w'
    | Thrown e w' => Thrown e w'
    | Diverged => Diverged
    end.
Proof.
  intros Hfile Hread. unfold main. cbn [length nth].
  destruct (Nat.eqb_spec (S (S (length more))) 1) as [Heq|_]; [lia|].
  unfold open. rewrite Hfile. cbn [failbit].
  unfold bind at 1. fold (from_text content). rewrite Hread. cbn [snd].
  unfold bind at 1 2 3 4 5 6 7 8, print. cbn [random cout cerr].
  unfold count_line. rewrite !string_app_assoc.
  unfold bind, ret. reflexivity.
Qed.

(** C10.  [main] generates from ["<start>"] and from nothing else: once the
    grammar file is read, the process ends as [generateText] started from
    ["<start>"] ends, whatever else stands on the command line; so for
    every grammar without the key ["<start>"] it ends with the
    [std::out_of_range] of [map::at], after the line with the count of the
    definitions. *)
Theorem main_generates_from_start fuel program path more fs content infile grammar w :
  fs path = Some content ->
  readGrammar fuel (from_text content) ∅ w = Returned (infile, grammar) w ->
  let w1 := mkWorld (random w) (cout w +:+ count_line path grammar) (cerr w) in
  main fuel (program :: path :: more) fs w
  = (generateText fuel "<start>" grammar ;;; ret 0) w1 /\
  (grammar !! "<start>" = None ->
   main fuel (program :: path :: more) fs w
   = Thrown UndefinedNonterminalError w1).
Proof.
  intros Hfile Hread w1.
  rewrite (main_after_reading _ _ _ _ _ _ _ _ _ Hfile Hread). fold w1. split.
  - unfold bind, ret. destruct (generateText fuel "<start>" grammar w1);
      reflexivity.
  - intros Hnone. rewrite generateText_start, Hnone. reflexivity.
Qed.

Lemma main_generates_from_start_witness :
  main 10 ["rsg"; "animal.g"; "<animal>"] animal_files (initially (always 0))
  = Thrown UndefinedNonterminalError
      (mkWorld (always 0)
         (count_line "animal.g" (<["<animal>" := animal_definition]> ∅))
         EmptyString).
Proof.
  apply (main_generates_from_start 10 "rsg" "animal.g" ["<animal>"]
           animal_files (unlines animal_block)
           (mkStream EmptyString true false)
           (<["<animal>" := animal_definition]> ∅)
           (initially (always 0))).
  - vm_compute. reflexivity.
  - vm_compute. reflexivity.
  - vm_compute. reflexivity.
Defined.

(** * Further properties of rsg.cc *)

(** ** The line of [printTextVector] *)

Lemma words_text_line text :
  Forall token_ok text -> String.words (text_line text) = text.
Proof.
  unfold String.words.
  induction 1 as [|word rest Hword _ IH]; [reflexivity|].
  cbn [text_line]. rewrite (words_go_first _ _ Hword).
  change (" " +:+ text_line rest) with (String " " (text_line rest)).
  cbn [String.words_go Ascii.is_space].
  cbn [fmap option_fmap option_map option_list].
  rewrite rev_rev_app, IH. reflexivity.
Qed.

(** X1.  [printTextVector] never fails and touches nothing but the
    standard output, to which it appends one line, whatever the words are:
    every word of the text, each followed by one space, also the last, and
    the end of the line.  When the words are not empty and hold no white
    space, splitting that line on white space gives the words back. *)
Theorem printTextVector_line_splits_into_the_words text w :
  printTextVector text w
  = Returned tt (mkWorld (random w) (cout w +:+ text_line text) (cerr w)) /\
  text_line text = foldr (fun word line => word +:+ " " +:+ line) endl text /\
  (Forall token_ok text -> String.words (text_line text) = text).
Proof.
  split; [apply printTextVector_prints|].
  split; [|apply words_text_line].
  induction text as [|word rest IH]; [reflexivity|].
  cbn [text_line foldr]. rewrite IH. reflexivity.
Qed.

Lemma printTextVector_line_splits_into_the_words_witness :
  printTextVector ["The"; "cat"; "sat"; "."] (initially (always 0))
  = Returned tt
      (mkWorld (always 0)
         (EmptyString +:+ text_line ["The"; "cat"; "sat"; "."]) EmptyString) /\
  String.words (text_line ["The"; "cat"; "sat"; "."])
  = ["The"; "cat"; "sat"; "."] /\
  printTextVector [EmptyString; "a b"] (initially (always 0))
  = Returned tt
      (mkWorld (always 0)
         (EmptyString +:+ text_line [EmptyString; "a b"]) EmptyString) /\
  String.words (text_line [EmptyString; "a b"]) <> [EmptyString; "a b"].
Proof.
  destruct (printTextVector_line_splits_into_the_words
              ["The"; "cat"; "sat"; "."] (initially (always 0)))
    as (Hprint & _ & Hwords).
  destruct (printTextVector_line_splits_into_the_words
              [EmptyString; "a b"] (initially (always 0)))
    as (Hprint' & _ & _).
  split; [exact Hprint|]. split; [|split; [exact Hprint'|]].
  - apply Hwords.
    repeat (constructor;
              [apply token_ok_spaceless; [discriminate|reflexivity]|]).
    constructor.
  - vm_compute. discriminate.
Defined.

(** ** What [buildTextVector] appends *)

(** X2.  A production of terminals expands to itself: with fuel beyond its
    length, [buildTextVector] appends its words to the text in order,
    whatever the grammar, and draws and writes nothing. *)
Theorem buildTextVector_copies_terminals fuel current grammar text w :
  Forall (fun word => word <> EmptyString /\ is_nonterminal word = false) current ->
  length current < fuel ->
  buildTextVector fuel current grammar text w = Returned (text ++ current) w.
Proof.
  intros Hterm. revert fuel text.
  induction Hterm as [|word next [Hne Hnt] _ IH]; intros [|fuel] text Hfuel;
    cbn [length] in Hfuel; try lia.
  - cbn. unfold ret. rewrite app_nil_r. reflexivity.
  - rewrite buildTextVector_step, Hnt. destruct word; [congruence|].
    rewrite IH by lia. rewrite <- app_assoc. reflexivity.
Qed.

Lemma buildTextVector_copies_terminals_witness :
  buildTextVector 4 ["sat"; "."] coin_grammar ["The"; "cat"]
    (initially alternating)
  = Returned (["The"; "cat"] ++ ["sat"; "."]) (initially alternating).
Proof.
  apply buildTextVector_copies_terminals.
  - repeat (constructor; [split; [discriminate|reflexivity]|]). constructor.
  - cbn. lia.
Defined.

Lemma word_of_next grammar word next token :
  word_of grammar next token -> word_of grammar (word :: next) token.
Proof.
  intros [H|H]; [left; apply list_elem_of_further, H|right; exact H].
Qed.

Lemma word_of_alternative grammar name def p current token :
  grammar !! name = Some def ->
  p ∈ possibleExpansions def ->
  word_of grammar p token ->
  word_of grammar current token.
Proof.
  intros Hdef Hp [H|H]; right; [exists name, def, p; auto|exact H].
Qed.

Lemma expands_words grammar current r out r' :
  expands grammar current r out r' ->
  Forall (word_of grammar current) out.
Proof.
  induction 1 as [r|word next r out r' Hne Hnt _ IH
                 |word next def p r o1 r1 o2 r2 Hnt Hdef Hch _ IH1 _ IH2].
  - constructor.
  - constructor; [left; apply list_elem_of_here|].
    eapply Forall_impl; [exact IH|]. intros token. apply word_of_next.
  - apply Forall_app. split.
    + eapply Forall_impl; [exact IH1|]. intros token.
      eapply word_of_alternative; [exact Hdef|]. eapply chooses_elem_of, Hch.
    + eapply Forall_impl; [exact IH2|]. intros token. apply word_of_next.
Qed.

(** X3.  [buildTextVector] invents no word: the text it returns is the
    text it was given followed by words that stand in the production it was
    given or in an alternative of a definition of the grammar. *)
Theorem buildTextVector_appends_words_of_the_grammar fuel current grammar text w text' w' :
  buildTextVector fuel current grammar text w = Returned text' w' ->
  exists out,
    text' = text ++ out /\ Forall (word_of grammar current) out.
Proof.
  intros H. apply buildTextVector_sound in H as (out & -> & Hex & _).
  exists out. split; [reflexivity|]. eapply expands_words, Hex.
Qed.

Lemma buildTextVector_appends_words_of_the_grammar_witness :
  exists out,
    ["The"; "dog"; "sat"; "."] = [] ++ out /\
    Forall (word_of example_grammar ["<start>"]) out.
Proof.
  apply (buildTextVector_appends_words_of_the_grammar 10 ["<start>"]
           example_grammar [] (initially (always 1))
           ["The"; "dog"; "sat"; "."]
           (mkWorld (mkRandom (fun _ => 1) 2) EmptyString EmptyString)).
  vm_compute. reflexivity.
Defined.

(** ** Why an expansion fails *)

(** Neither output is written by [buildTextVector], however it ends. *)
Lemma buildTextVector_outputs fuel :
  forall current grammar text w,
    match buildTextVector fuel current grammar text w with
    | Returned _ w' | Thrown _ w' => cout w' = cout w /\ cerr w' = cerr w
    | Diverged => True
    end.
Proof.
  induction fuel as [|fuel IH]; intros current grammar text w; [exact I|].
  destruct current as [|word next]; [cbn; auto|].
  rewrite buildTextVector_step. destruct word as [|c word']; [auto|].
  destruct (is_nonterminal (String c word')); [|apply IH].
  destruct (grammar !! String c word') as [def|]; [|auto].
  rewrite getRandomProduction_unfold.
  destruct (possibleExpansions def !! _) as [p|]; [|auto].
  pose proof (IH p grammar text
                (mkWorld (advance (random w)) (cout w) (cerr w))) as H1.
  destruct (buildTextVector fuel p grammar text _) as [t w2|e w2|];
    [|exact H1|exact I].
  cbn in H1. destruct H1 as [Hc He].
  pose proof (IH next grammar t w2) as H2.
  destruct (buildTextVector fuel next grammar t w2) as [t' w3|e w3|];
    [split; destruct H2; congruence..|exact I].
Qed.

(** X4.  An expansion fails for one of three reasons only, and each has
    its cause among the words of the production and of the grammar: an
    empty word ([std::out_of_range] from [string::at]), a nonterminal
    without a definition ([std::out_of_range] from [map::at]), or a
    definition without alternatives.  Nothing has been written when the
    exception leaves [buildTextVector]. *)
Theorem buildTextVector_fails_for_a_cause fuel :
  forall current grammar text w e w',
    buildTextVector fuel current grammar text w = Thrown e w' ->
    cout w' = cout w /\ cerr w' = cerr w /\
    ((e = out_of_range of_basic_string /\
      word_of grammar current EmptyString) \/
     (e = UndefinedNonterminalError /\
      exists name,
        word_of grammar current name /\
        is_nonterminal name = true /\ grammar !! name = None) \/
     (e = EmptyDefinitionError /\
      exists name def,
        word_of grammar current name /\
        grammar !! name = Some def /\ possibleExpansions def = [])).
Proof.
  intros current grammar text w e w' H.
  pose proof (buildTextVector_outputs fuel current grammar text w) as Hout.
  rewrite H in Hout. destruct Hout as [Hc He].
  split; [exact Hc|]. split; [exact He|]. clear Hc He.
  revert current text w e w' H.
  induction fuel as [|fuel IH]; intros current text w e w' H; [discriminate|].
  destruct current as [|word next]; [discriminate|].
  rewrite buildTextVector_step in H.
  destruct word as [|c word'].
  { injection H as <- _. left. split; [reflexivity|].
    left. apply list_elem_of_here. }
  set (word := String c word') in *.
  assert (Hnext : forall text1 w1,
            buildTextVector fuel next grammar text1 w1 = Thrown e w' ->
            (e = out_of_range of_basic_string /\
             word_of grammar (word :: next) EmptyString) \/
            (e = UndefinedNonterminalError /\
             exists name,
               word_of grammar (word :: next) name /\
               is_nonterminal name = true /\ grammar !! name = None) \/
            (e = EmptyDefinitionError /\
             exists name def,
               word_of grammar (word :: next) name /\
               grammar !! name = Some def /\ possibleExpansions def = [])).
  { intros text1 w1 H1.
    destruct (IH _ _ _ _ _ H1)
      as [[-> Hw]|[[-> (name & Hw & Hn)]|[-> (name & def & Hw & Hn)]]].
    - left. split; [reflexivity|]. apply word_of_next, Hw.
    - right. left. split; [reflexivity|]. exists name.
      split; [apply word_of_next, Hw|exact Hn].
    - right. right. split; [reflexivity|]. exists name, def.
      split; [apply word_of_next, Hw|exact Hn]. }
  destruct (is_nonterminal word) eqn:Hnt; [|eapply Hnext, H].
  destruct (grammar !! word) as [def|] eqn:Hdef.
  - rewrite getRandomProduction_unfold in H.
    destruct (possibleExpansions def !! _) as [p|] eqn:Hp.
    + destruct (buildTextVector fuel p grammar text _) as [t w2|e2 w2|] eqn:E1;
        [eapply Hnext, H| |discriminate].
      injection H as -> ->.
      apply list_elem_of_lookup_2 in Hp.
      destruct (IH _ _ _ _ _ E1)
        as [[-> Hw]|[[-> (name & Hw & Hn)]|[-> (name & def' & Hw & Hn)]]].
      * left. split; [reflexivity|].
        eapply word_of_alternative; eassumption.
      * right. left. split; [reflexivity|]. exists name.
        split; [eapply word_of_alternative; eassumption|exact Hn].
      * right. right. split; [reflexivity|]. exists name, def'.
        split; [eapply word_of_alternative; eassumption|exact Hn].
    + injection H as <- _. right. right. split; [reflexivity|].
      exists word, def. split; [left; apply list_elem_of_here|].
      split; [exact Hdef|].
      destruct (possibleExpansions def) as [|first others] eqn:El;
        [reflexivity|].
      apply lookup_ge_None in Hp. cbn [length] in Hp.
      pose proof (Nat.mod_upper_bound
                    (draws (random w) (consumed (random w)))
                    (S (length others))) as Hlt.
      lia.
  - injection H as <- _. right. left. split; [reflexivity|].
    exists word. split; [left; apply list_elem_of_here|]. auto.
Qed.

Lemma buildTextVector_fails_for_a_cause_witness :
  cout (mkWorld (advance (always 0)) EmptyString EmptyString) = EmptyString /\
  cerr (mkWorld (advance (always 0)) EmptyString EmptyString) = EmptyString /\
  ((UndefinedNonterminalError = out_of_range of_basic_string /\
    word_of start_only_grammar ["<start>"] EmptyString) \/
   (UndefinedNonterminalError = UndefinedNonterminalError /\
    exists name,
      word_of start_only_grammar ["<start>"] name /\
      is_nonterminal name = true /\ start_only_grammar !! name = None) \/
   (UndefinedNonterminalError = EmptyDefinitionError /\
    exists name def,
      word_of start_only_grammar ["<start>"] name /\
      start_only_grammar !! name = Some def /\ possibleExpansions def = [])).
Proof.
  apply (buildTextVector_fails_for_a_cause 10 ["<start>"] start_only_grammar
           [] (initially (always 0))).
  vm_compute. reflexivity.
Defined.

(** ** When an expansion ends *)

(** One fuel for all the alternatives of a definition. *)
Lemma fuel_for_alternatives grammar (alternatives : list Production) :
  Forall (fun p =>
            exists fuel0, forall fuel, fuel0 <= fuel -> forall text w,
              exists out w',
                buildTextVector fuel p grammar text w = Returned (text ++ out) w')
         alternatives ->
  exists fuel0, forall p, p ∈ alternatives ->
    forall fuel, fuel0 <= fuel -> forall text w,
      exists out w',
        buildTextVector fuel p grammar text w = Returned (text ++ out) w'.
Proof.
  induction 1 as [|p alternatives [f Hf] _ [F HF]].
  - exists 0. intros p Hp. apply elem_of_nil in Hp. contradiction.
  - exists (max f F). intros q Hq fuel Hle text w.
    apply elem_of_cons in Hq as [->|Hq]; [apply Hf|apply (HF q Hq)]; lia.
Qed.

(** X5.  On a grammar without recursion and without gaps, expansion always
    returns: when the nonterminals can be ranked so that every alternative
    of a definition refers to defined nonterminals of lower rank only, no
    word is empty and every definition has an alternative, then from some
    amount of fuel on [buildTextVector] returns for every production of
    such words, for every text and every state of the random source. *)
Theorem buildTextVector_returns_on_ranked_grammars grammar rank bound current :
  ranked_grammar grammar rank ->
  Forall (expandable grammar rank bound) current ->
  exists fuel0, forall fuel, fuel0 <= fuel -> forall text w,
    exists out w',
      buildTextVector fuel current grammar text w = Returned (text ++ out) w'.
Proof.
  intros Hranked. revert current.
  induction bound as [bound IHbound] using lt_wf_ind.
  induction 1 as [|word next [Hne Hword] _ [f2 Hf2]].
  - exists 1. intros [|fuel] Hle text w; [lia|].
    exists [], w. cbn. unfold ret. rewrite app_nil_r. reflexivity.
  - destruct (is_nonterminal word) eqn:Hnt.
    + destruct (Hword eq_refl) as [[def Hdef] Hrank].
      destruct (Hranked word def Hdef) as [Hsome Halts].
      assert (HF : exists F, forall p, p ∈ possibleExpansions def ->
                 forall fuel, F <= fuel -> forall text w,
                   exists out w',
                     buildTextVector fuel p grammar text w
                     = Returned (text ++ out) w').
      { apply fuel_for_alternatives.
        eapply Forall_impl; [exact Halts|].
        intros p Hp. apply (IHbound (rank word) Hrank p Hp). }
      destruct HF as [F HF].
      exists (S (max F f2)). intros [|fuel] Hle text w; [lia|].
      rewrite buildTextVector_step, Hnt, Hdef.
      destruct word as [|c word']; [congruence|].
      rewrite getRandomProduction_unfold.
      destruct (possibleExpansions def !! _) as [p|] eqn:Hp.
      * apply list_elem_of_lookup_2 in Hp.
        destruct (HF p Hp fuel ltac:(lia) text
                    (mkWorld (advance (random w)) (cout w) (cerr w)))
          as (out1 & w1 & ->).
        destruct (Hf2 fuel ltac:(lia) (text ++ out1) w1) as (out2 & w2 & ->).
        exists (out1 ++ out2), w2. rewrite app_assoc. reflexivity.
      * exfalso. apply lookup_ge_None in Hp.
        destruct (possibleExpansions def) as [|first others]; [congruence|].
        cbn [length] in Hp.
        pose proof (Nat.mod_upper_bound
                      (draws (random w) (consumed (random w)))
                      (S (length others))) as Hlt.
        lia.
    + exists (S f2). intros [|fuel] Hle text w; [lia|].
      rewrite buildTextVector_step, Hnt.
      destruct word as [|c word']; [congruence|].
      destruct (Hf2 fuel ltac:(lia) (text ++ [String c word']) w)
        as (out & w' & ->).
      exists (String c word' :: out), w'. rewrite <- app_assoc. reflexivity.
Qed.

Lemma example_grammar_ranked : ranked_grammar example_grammar example_rank.
Proof.
  intros name def Hdef. unfold example_grammar in Hdef.
  apply lookup_insert_Some in Hdef as [[<- <-]|[_ Hdef]].
  - split; [discriminate|].
    repeat (constructor;
            [repeat (constructor; [split; [discriminate|discriminate]|]);
             constructor|]).
    constructor.
  - apply lookup_insert_Some in Hdef as [[<- <-]|[_ Hdef]].
    + split; [discriminate|].
      constructor; [|constructor].
      constructor; [split; [discriminate|discriminate]|].
      constructor.
      { split; [discriminate|]. intros _. split; [|vm_compute; lia].
        exists animal_definition. vm_compute. reflexivity. }
      repeat (constructor; [split; [discriminate|discriminate]|]).
      constructor.
    + rewrite lookup_empty in Hdef. discriminate.
Qed.

Lemma buildTextVector_returns_on_ranked_grammars_witness :
  exists fuel0, forall fuel, fuel0 <= fuel -> forall text w,
    exists out w',
      buildTextVector fuel ["<start>"; "<animal>"] example_grammar text w
      = Returned (text ++ out) w'.
Proof.
  apply (buildTextVector_returns_on_ranked_grammars example_grammar
           example_rank 2).
  - exact example_grammar_ranked.
  - constructor.
    { split; [discriminate|]. intros _. split; [|vm_compute; lia].
      exists start_definition. vm_compute. reflexivity. }
    constructor; [|constructor].
    split; [discriminate|]. intros _. split; [|vm_compute; lia].
    exists animal_definition. vm_compute. reflexivity.
Defined.

(** X6.  A definition whose every alternative begins with its own
    nonterminal cannot be expanded: whatever the fuel, the text and the
    random source, [buildTextVector] on a production that begins with the
    nonterminal neither returns nor throws; the recursion of the source
    does not end. *)
Theorem buildTextVector_never_ends_on_left_recursion grammar name def :
  is_nonterminal name = true ->
  grammar !! name = Some def ->
  possibleExpansions def <> [] ->
  (forall p, p ∈ possibleExpansions def -> exists rest, p = name :: rest) ->
  forall fuel next text w,
    buildTextVector fuel (name :: next) grammar text w = Diverged.
Proof.
  intros Hnt Hdef Hsome Hleft.
  induction fuel as [|fuel IH]; intros next text w; [reflexivity|].
  rewrite buildTextVector_step, Hnt, Hdef.
  destruct name as [|c name']; [discriminate|].
  rewrite getRandomProduction_unfold.
  destruct (possibleExpansions def !! _) as [p|] eqn:Hp.
  - apply list_elem_of_lookup_2 in Hp. destruct (Hleft p Hp) as [rest ->].
    rewrite IH. reflexivity.
  - exfalso. apply lookup_ge_None in Hp.
    destruct (possibleExpansions def) as [|first others]; [congruence|].
    cbn [length] in Hp.
    pose proof (Nat.mod_upper_bound
                  (draws (random w) (consumed (random w)))
                  (S (length others))) as Hlt.
    lia.
Qed.

Lemma buildTextVector_never_ends_on_left_recursion_witness :
  buildTextVector 1000 ["<loop>"; "end"] loop_grammar ["The"]
    (initially alternating)
  = Diverged.
Proof.
  apply (buildTextVector_never_ends_on_left_recursion loop_grammar "<loop>"
           (mkDefinition "<loop>" [["<loop>"; "again"]; ["<loop>"]])).
  - reflexivity.
  - vm_compute. reflexivity.
  - discriminate.
  - intros p Hp. cbn [possibleExpansions] in Hp.
    apply elem_of_cons in Hp as [->|Hp]; [eexists; reflexivity|].
    apply list_elem_of_singleton in Hp as ->. eexists; reflexivity.
Defined.

(** ** How [generateText] ends *)

Lemma turns_write_versions fuel production grammar iterations :
  forall i w,
    match for_loop i iterations (fun i =>
            text <- buildTextVector fuel production grammar [] ;;
            print "Version #" ;;; print (pretty (i + 1)) ;;; print ":" ;;;
            print " ---------------------------" ;;; print endl ;;;
            printTextVector text ;;; print endl) w with
    | Returned _ w' =>
        exists texts,
          length texts = iterations /\
          cout w' = cout w +:+ versions i texts /\ cerr w' = cerr w
    | Thrown _ w' =>
        exists texts,
          length texts < iterations /\
          cout w' = cout w +:+ versions i texts /\ cerr w' = cerr w
    | Diverged => True
    end.
Proof.
  induction iterations as [|n IH]; intros i w.
  - cbn. exists []. cbn. rewrite string_app_nil_r. auto.
  - cbn [for_loop]. unfold bind at 1. turn.
    pose proof (buildTextVector_outputs fuel production grammar [] w) as Hout.
    destruct (buildTextVector fuel production grammar [] w) as [t w1|e w1|];
      [|exists []; cbn; rewrite string_app_nil_r; split; [lia|exact Hout]
       |exact I].
    destruct Hout as [Hc He].
    specialize (IH (S i)
                  (mkWorld (random w1) (cout w1 +:+ version_output i t) (cerr w1))).
    destruct (for_loop (S i) n _ _) as [u w2|e w2|]; [| |exact I];
      destruct IH as (texts & Hlen & Hcout & Hcerr); cbn in Hcout, Hcerr;
      exists (t :: texts); cbn [length versions];
      (split; [lia|]); rewrite Hcout, Hcerr, Hc, He, !string_app_assoc; auto.
Qed.

(** X7.  However [generateText] ends, it has written nothing to the
    standard error, and to the standard output only whole versions, headed
    [Version #1], [Version #2], ... in this order: all three when it
    returns, and those of the turns before the failing one (two at most)
    when an exception leaves it; what was written before the exception is
    not taken back. *)
Theorem generateText_writes_whole_versions fuel startNonTerminal grammar w :
  match generateText fuel startNonTerminal grammar w with
  | Returned _ w' =>
      exists texts,
        length texts = 3 /\
        cout w' = cout w +:+ versions 0 texts /\ cerr w' = cerr w
  | Thrown _ w' =>
      exists texts,
        length texts < 3 /\
        cout w' = cout w +:+ versions 0 texts /\ cerr w' = cerr w
  | Diverged => True
  end.
Proof.
  rewrite generateText_start.
  destruct (grammar !! startNonTerminal) as [definition|].
  - rewrite getRandomProduction_unfold.
    destruct (possibleExpansions definition !! _) as [production|].
    + pose proof (turns_write_versions fuel production grammar 3 0
                    (mkWorld (advance (random w)) (cout w) (cerr w))) as H.
      destruct (for_loop 0 3 _ _) as [u w'|e w'|]; exact H.
    + exists []. cbn. rewrite string_app_nil_r. split; [lia|auto].
  - exists []. cbn. rewrite string_app_nil_r. split; [lia|auto].
Qed.

Lemma generateText_versions_share_the_production_witness :
  exists definition production text1 text2 text3 r1 r2,
    example_grammar !! "<start>" = Some definition /\
    chooses definition (always 0) production /\
    expands example_grammar production (advance (always 0)) text1 r1 /\
    expands example_grammar production r1 text2 r2 /\
    expands example_grammar production r2 text3 (mkRandom (fun _ => 0) 4) /\
    version_output 0 ["The"; "cat"; "sat"; "."]
    +:+ version_output 1 ["The"; "cat"; "sat"; "."]
    +:+ version_output 2 ["The"; "cat"; "sat"; "."]
    = EmptyString +:+ version_output 0 text1 +:+ version_output 1 text2
      +:+ version_output 2 text3.
Proof.
  apply (generateText_versions_share_the_production 10 "<start>"
           example_grammar (initially (always 0))
           (mkWorld (mkRandom (fun _ => 0) 4)
              (version_output 0 ["The"; "cat"; "sat"; "."]
               +:+ version_output 1 ["The"; "cat"; "sat"; "."]
               +:+ version_output 2 ["The"; "cat"; "sat"; "."])
              EmptyString)).
  vm_compute. reflexivity.
Defined.

(** ** What [readGrammar] does to the map *)

(** X9.  [readGrammar] only adds to the map it is given: when it returns,
    the stream is at its end, the world is as before, no key of the map
    has gone, and every entry is an entry of the map given or stands under
    the nonterminal of its own definition.  Read into the empty map, as
    [main] does, every definition stands under its own nonterminal. *)
Theorem readGrammar_only_adds_definitions fuel :
  forall infile grammar w infile' grammar' w',
    readGrammar fuel infile grammar w = Returned (infile', grammar') w' ->
    eofbit infile' = true /\ w' = w /\
    dom grammar ⊆ dom grammar' /\
    (forall name def,
        grammar' !! name = Some def ->
        grammar !! name = Some def \/ getNonterminal def = name) /\
    (grammar = ∅ ->
     forall name def, grammar' !! name = Some def -> getNonterminal def = name).
Proof.
  assert (Hmain : forall fuel infile grammar w infile' grammar' w',
    readGrammar fuel infile grammar w = Returned (infile', grammar') w' ->
    eofbit infile' = true /\ w' = w /\
    dom grammar ⊆ dom grammar' /\
    (forall name def,
        grammar' !! name = Some def ->
        grammar !! name = Some def \/ getNonterminal def = name)).
  { clear fuel. induction fuel as [|fuel IH];
      intros infile grammar w infile' grammar' w' H; [discriminate|].
    rewrite readGrammar_step in H. cbn zeta in H.
    destruct (eofbit (snd (getline infile "{"))) eqn:Heof.
    - injection H as <- <- <-. auto.
    - destruct (Definition_parse _) as [[def infile2]|]; [|discriminate].
      apply IH in H as (He & Hw & Hdom & Hentries).
      split; [exact He|]. split; [exact Hw|]. split.
      + etrans; [|exact Hdom]. rewrite dom_insert_L. apply union_subseteq_r.
      + intros name def' Hlook. apply Hentries in Hlook as [Hlook|Hlook];
          [|right; exact Hlook].
        apply lookup_insert_Some in Hlook as [[<- <-]|[_ Hlook]]; auto. }
  intros infile grammar w infile' grammar' w' H.
  destruct (Hmain _ _ _ _ _ _ _ H) as (He & Hw & Hdom & Hentries).
  repeat (split; [assumption|]).
  intros -> name def Hlook. apply Hentries in Hlook as [Hlook|Hlook];
    [rewrite lookup_empty in Hlook; discriminate|exact Hlook].
Qed.

Lemma readGrammar_only_adds_definitions_witness :
  eofbit (mkStream EmptyString true false) = true /\
  initially (always 0) = initially (always 0) /\
  dom coin_grammar ⊆ dom (<["<animal>" := animal_definition]> coin_grammar).
Proof.
  destruct (readGrammar_only_adds_definitions 5
              (from_text (unlines animal_block)) coin_grammar
              (initially (always 0))
              (mkStream EmptyString true false)
              (<["<animal>" := animal_definition]> coin_grammar)
              (initially (always 0)))
    as (He & Hw & Hdom & _).
  - vm_compute. reflexivity.
  - auto.
Defined.

(** ** The exit codes of [main] *)

Lemma main_without_path fuel program fs w :
  main fuel [program] fs w
  = Returned 1 (mkWorld (random w) (cout w) (cerr w +:+ usage_message)).
Proof.
  unfold main. cbn [length Nat.eqb]. unfold bind, print_err, ret.
  cbn [random cout cerr]. unfold usage_message.
  rewrite !string_app_assoc. reflexivity.
Qed.

Lemma main_without_file fuel program path more fs w :
  fs path = None ->
  main fuel (program :: path :: more) fs w
  = Returned 2
      (mkWorld (random w) (cout w) (cerr w +:+ open_failure_message path)).
Proof.
  intros Hfile. unfold main. cbn [length nth Nat.eqb].
  unfold open. rewrite Hfile. cbn [failbit].
  unfold bind, print_err, ret. cbn [random cout cerr].
  unfold open_failure_message. rewrite !string_app_assoc. reflexivity.
Qed.

(** X10.  The exit codes of [main].  Without an argument it returns 1 and
    with a file that cannot be opened it returns 2; in both cases it
    writes its message to the standard error, and nothing to the standard
    output, and draws nothing.  Conversely a run that returns has returned
    1, 2 or 0 for these reasons: 0 only after the grammar was read, had a
    definition of ["<start>"], and the line with the count of definitions
    and three versions were written to the standard output, with nothing
    on the standard error. *)
Theorem main_exit_codes fuel argv fs w :
  let path := nth 1 argv EmptyString in
  (length argv = 1 ->
   main fuel argv fs w
   = Returned 1 (mkWorld (random w) (cout w) (cerr w +:+ usage_message))) /\
  (1 < length argv -> fs path = None ->
   main fuel argv fs w
   = Returned 2
       (mkWorld (random w) (cout w) (cerr w +:+ open_failure_message path))) /\
  (forall code w',
      argv <> [] ->
      main fuel argv fs w = Returned code w' ->
      (code = 1 /\ length argv = 1) \/
      (code = 2 /\ 1 < length argv /\ fs path = None) \/
      (code = 0 /\ 1 < length argv /\
       exists content infile grammar text1 text2 text3,
         fs path = Some content /\
         readGrammar fuel (from_text content) ∅ w = Returned (infile, grammar) w /\
         is_Some (grammar !! "<start>") /\
         cerr w' = cerr w /\
         cout w' = cout w +:+ count_line path grammar
                   +:+ version_output 0 text1 +:+ version_output 1 text2
                   +:+ version_output 2 text3)).
Proof.
  intros path. subst path.
  destruct argv as [|program [|path more]].
  - split; [discriminate|]. split; [cbn; lia|]. intros code w' Hne.
    congruence.
  - split; [intros _; apply main_without_path|].
    split; [cbn; lia|]. intros code w' _ H.
    rewrite main_without_path in H. injection H as <- _. left. auto.
  - cbn [length nth]. split; [lia|].
    split; [intros _; apply main_without_file|].
    intros code w' _ H. right.
    destruct (fs path) as [content|] eqn:Hfile.
    + right.
      pose proof (readGrammar_world fuel (from_text content) ∅ w) as Hworld.
      destruct (readGrammar fuel (from_text content) ∅ w)
        as [[infile grammar] w1|e w1|] eqn:Hread.
      * subst w1.
        rewrite (main_after_reading _ _ _ _ _ _ _ _ _ Hfile Hread) in H.
        destruct (generateText fuel "<start>" grammar _) as [u w2|e w2|] eqn:Hgen;
          try discriminate.
        injection H as <- <-. destruct u.
        apply generateText_returns in Hgen
          as (def & p & t1 & r1 & t2 & r2 & t3 & r3 & Hdef & _ & _ & _ & _ & ->).
        split; [reflexivity|]. split; [lia|].
        exists content, infile, grammar, t1, t2, t3.
        cbn [cout cerr]. rewrite !string_app_assoc. eauto 10.
      * exfalso. revert H. unfold main. cbn [length nth Nat.eqb].
        unfold open. rewrite Hfile. cbn [failbit]. unfold bind at 1.
        fold (from_text content). rewrite Hread. discriminate.
      * exfalso. revert H. unfold main. cbn [length nth Nat.eqb].
        unfold open. rewrite Hfile. cbn [failbit]. unfold bind at 1.
        fold (from_text content). rewrite Hread. discriminate.
    + left. rewrite (main_without_file _ _ _ _ _ _ Hfile) in H.
      injection H as <- _. split; [reflexivity|]. split; [lia|reflexivity].
Qed.

Lemma main_exit_codes_witness :
  main 10 ["rsg"] example_files (initially (always 0))
  = Returned 1 (mkWorld (always 0) EmptyString (EmptyString +:+ usage_message)) /\
  main 10 ["rsg"; "missing.g"] example_files (initially (always 0))
  = Returned 2
      (mkWorld (always 0) EmptyString
         (EmptyString +:+ open_failure_message "missing.g")) /\
  is_Some (example_grammar !! "<start>").
Proof.
  split; [|split].
  - apply (main_exit_codes 10 ["rsg"] example_files (initially (always 0))).
    reflexivity.
  - apply (main_exit_codes 10 ["rsg"; "missing.g"] example_files
             (initially (always 0))).
    + cbn. lia.
    + reflexivity.
  - destruct (main_exit_codes 10 ["rsg"; "example.g"] example_files
                (initially (always 0))) as (_ & _ & Hcode).
    destruct (Hcode 0
                (mkWorld (mkRandom (fun _ => 0) 4)
                   (count_line "example.g" example_grammar
                    +:+ version_output 0 ["The"; "cat"; "sat"; "."]
                    +:+ version_output 1 ["The"; "cat"; "sat"; "."]
                    +:+ version_output 2 ["The"; "cat"; "sat"; "."])
                   EmptyString))
      as [[H _]|[[H _]|(_ & _ & content & infile & grammar & t1 & t2 & t3
                        & Hfile & Hread & Hstart & _)]];
      [discriminate|vm_compute; reflexivity|discriminate|discriminate|].
    injection Hfile as <-.
    assert (Hg : readGrammar 10 (from_text example_text) ∅ (initially (always 0))
                 = Returned (mkStream EmptyString true false, example_grammar)
                     (initially (always 0)))
      by (vm_compute; reflexivity).
    rewrite Hg in Hread. injection Hread as _ <-. exact Hstart.
Defined.

(** X11.  [main] catches nothing and reports nothing: when an exception
    leaves it, the grammar file had been opened and nothing has been
    written to the standard error.  Either the exception is the
    [GrammarFormatError] of the constructor, thrown while the grammar was
    read, and the standard output is untouched as well; or the grammar was
    read, its count line was written, and the exception left
    [generateText] after fewer than three versions, which stay on the
    standard output. *)
Theorem main_reports_no_exception fuel argv fs w e w' :
  argv <> [] ->
  main fuel argv fs w = Thrown e w' ->
  let path := nth 1 argv EmptyString in
  1 < length argv /\
  cerr w' = cerr w /\
  exists content,
    fs path = Some content /\
    ((e = GrammarFormatError /\ w' = w /\
      readGrammar fuel (from_text content) ∅ w = Thrown GrammarFormatError w) \/
     (exists infile grammar texts,
         readGrammar fuel (from_text content) ∅ w = Returned (infile, grammar) w /\
         length texts < 3 /\
         cout w' = cout w +:+ count_line path grammar +:+ versions 0 texts)).
Proof.
  intros Hne H path. subst path.
  destruct argv as [|program [|path more]]; [congruence| |].
  { rewrite main_without_path in H. discriminate. }
  cbn [length nth]. split; [lia|].
  destruct (fs path) as [content|] eqn:Hfile;
    [|rewrite (main_without_file _ _ _ _ _ _ Hfile) in H; discriminate].
  pose proof (readGrammar_world fuel (from_text content) ∅ w) as Hworld.
  destruct (readGrammar fuel (from_text content) ∅ w)
    as [[infile grammar] w1|e1 w1|] eqn:Hread.
  - subst w1.
    rewrite (main_after_reading _ _ _ _ _ _ _ _ _ Hfile Hread) in H.
    set (w1 := mkWorld (random w) (cout w +:+ count_line path grammar) (cerr w))
      in *.
    assert (Hend :
      match generateText fuel "<start>" grammar w1 with
      | Returned _ _ => True
      | Thrown _ w2 =>
          exists texts,
            length texts < 3 /\
            cout w2 = cout w1 +:+ versions 0 texts /\ cerr w2 = cerr w1
      | Diverged => True
      end).
    { rewrite generateText_start.
      destruct (grammar !! "<start>") as [definition|];
        [|exists []; cbn; rewrite string_app_nil_r; split; [lia|auto]].
      rewrite getRandomProduction_unfold.
      destruct (possibleExpansions definition !! _) as [production|];
        [|exists []; cbn; rewrite string_app_nil_r; split; [lia|auto]].
      pose proof (turns_write_versions fuel production grammar 3 0
                    (mkWorld (advance (random w1)) (cout w1) (cerr w1))) as Ht.
      destruct (for_loop 0 3 _ _) as [u w2|e2 w2|]; [exact I|exact Ht|exact I]. }
    destruct (generateText fuel "<start>" grammar w1) as [u w2|e2 w2|];
      try discriminate.
    injection H as -> ->. destruct Hend as (texts & Hlen & Hcout & Hcerr).
    split; [exact Hcerr|]. exists content. split; [reflexivity|].
    right. exists infile, grammar, texts.
    split; [first [exact Hread|reflexivity]|]. split; [exact Hlen|].
    rewrite Hcout. subst w1. cbn [cout]. apply string_app_assoc.
  - destruct Hworld as [-> ->].
    assert (Hmain : main fuel (program :: path :: more) fs w
                    = Thrown GrammarFormatError w).
    { unfold main. cbn [length nth Nat.eqb]. unfold open. rewrite Hfile.
      cbn [failbit]. unfold bind at 1. fold (from_text content).
      rewrite Hread. reflexivity. }
    rewrite Hmain in H. injection H as <- <-.
    split; [reflexivity|]. exists content. split; [reflexivity|]. left. auto.
  - exfalso. revert H. unfold main. cbn [length nth Nat.eqb].
    unfold open. rewrite Hfile. cbn [failbit]. unfold bind at 1.
    fold (from_text content). rewrite Hread. discriminate.
Qed.

Lemma main_reports_no_exception_witness :
  1 < length ["rsg"; "start.g"] /\
  cerr (mkWorld (mkRandom (fun _ => 0) 1)
          (count_line "start.g" start_only_grammar) EmptyString)
  = cerr (initially (always 0)).
Proof.
  destruct (main_reports_no_exception 10 ["rsg"; "start.g"] example_files
              (initially (always 0)) UndefinedNonterminalError
              (mkWorld (mkRandom (fun _ => 0) 1)
                 (count_line "start.g" start_only_grammar) EmptyString))
    as (Hlen & Hcerr & _).
  - discriminate.
  - vm_compute. reflexivity.
  - split; [exact Hlen|exact Hcerr].
Defined.
